(** * obsidian-mcp: the vault operations of [src/obsidian_mcp/__init__.py]

    A shallow embedding of the path-safety and query layer of the server:
    the hidden/system filter, the note store (read, write, soft delete),
    the scanning queries (list, title search, full-text search, tags,
    statistics) and the tool dispatcher.

    Text is a sequence of Unicode code points, as a Python [str] is.
    The file system is an explicit store that every operation receives
    and (for write and delete) returns. *)

From Stdlib Require Import String Ascii.
From Stdlib Require Import List NArith ZArith Bool Lia Permutation Sorted.
Import ListNotations.

(* ================================================================== *)
(** ** Text: Python [str] as a list of code points *)
(* ================================================================== *)

Definition pystr := list N.

(** An ASCII literal of the source, as code points. *)
Definition lit (s : string) : pystr :=
  map N_of_ascii (list_ascii_of_string s).

Fixpoint str_eqb (a b : pystr) : bool :=
  match a, b with
  | [], [] => true
  | x :: a', y :: b' => N.eqb x y && str_eqb a' b'
  | _, _ => false
  end.

(** [s.startswith(pre)] *)
Fixpoint startswith (pre s : pystr) : bool :=
  match pre, s with
  | [], _ => true
  | x :: pre', y :: s' => N.eqb x y && startswith pre' s'
  | _ :: _, [] => false
  end.

(** [s.endswith(suf)] *)
Definition endswith (suf s : pystr) : bool :=
  startswith (rev suf) (rev s).

(** [sub in s] *)
Fixpoint contains (sub s : pystr) : bool :=
  startswith sub s ||
  match s with
  | [] => false
  | _ :: s' => contains sub s'
  end.

(** [s.find(sub)]: the least index at which [sub] occurs, or [-1]. *)
Fixpoint find_from (i : Z) (sub s : pystr) : Z :=
  if startswith sub s then i
  else match s with
       | [] => (-1)%Z
       | _ :: s' => find_from (i + 1) sub s'
       end.

Definition find (sub s : pystr) : Z := find_from 0 sub s.

(** [len(s)] *)
Definition len (s : pystr) : Z := Z.of_nat (length s).

(** [s[a:b]] for indices that are not negative, the only ones the
    source produces ([max(0, _)] and [min(len(s), _)] of sums that are
    not negative). *)
Definition slice (a b : Z) (s : pystr) : pystr :=
  firstn (Z.to_nat (b - a)) (skipn (Z.to_nat a) s).

(** [s.replace("\n", " ")] *)
Definition replace_newlines (s : pystr) : pystr :=
  map (fun c => if N.eqb c 10 then 32%N else c) s.

(** [sep.join(xs)] *)
Fixpoint join (sep : pystr) (xs : list pystr) : pystr :=
  match xs with
  | [] => []
  | [x] => x
  | x :: rest => x ++ sep ++ join sep rest
  end.

(** [s.split("/")]: the pieces between slashes, empty ones included. *)
Fixpoint split_slash (cur : pystr) (s : pystr) : list pystr :=
  match s with
  | [] => [rev cur]
  | c :: s' =>
      if N.eqb c 47 then rev cur :: split_slash [] s'
      else split_slash (c :: cur) s'
  end.

(** The host language's Unicode tables, which the source reaches
    through [str.lower] and the [\w] class of [re].  They are not part
    of the repository; the development is parametric in them.

    - [lower_cp c] is the lowercase mapping of code point [c]; it can
      have more than one code point (U+0130 lowers to two).  The host
      lowers a text code point by code point, but for the capital
      sigma (U+03A3), whose lowering depends on its place in the
      word; [lower] below is the host's [str.lower] on texts without
      that letter.
    - [word_cp c] says whether [c] is alphanumeric or the underscore
      (the class [\w] of a [str] pattern). *)
Record unicode := {
  lower_cp : N -> list N;
  word_cp : N -> bool
}.

(** [s.lower()] *)
Definition lower (U : unicode) (s : pystr) : pystr :=
  flat_map (lower_cp U) s.

(** Tables for the concrete examples.  The lowercase mapping is the
    host's on Basic Latin, Latin-1 and U+0130 and leaves every other
    code point as it is; the word class is the host's on Basic Latin
    and on the Hangul syllables (which have no case).  The examples
    use only these code points. *)
Definition sample_lower_cp (c : N) : list N :=
  if ((65 <=? c) && (c <=? 90))%N then [c + 32]%N
  else if ((192 <=? c) && (c <=? 222) && negb (c =? 215))%N then [c + 32]%N
  else if (c =? 304)%N then [105; 775]%N
  else [c].

Definition sample_word_cp (c : N) : bool :=
  ((48 <=? c) && (c <=? 57) || (65 <=? c) && (c <=? 90) ||
   (97 <=? c) && (c <=? 122) || (c =? 95) ||
   (44032 <=? c) && (c <=? 55203))%N.

Definition sample_unicode : unicode :=
  {| lower_cp := sample_lower_cp; word_cp := sample_word_cp |}.

(* ================================================================== *)
(** ** Paths: [pathlib.Path] on a POSIX host *)
(* ================================================================== *)

(** A path is its root flag and its segments.  [Path(s)] drops empty
    segments and [.] segments and keeps [..] segments.  (POSIX lets a
    path that begins with exactly two slashes keep them as a root of
    its own; that root is read here as the ordinary one.) *)
Record Path := mkPath {
  is_absolute : bool;
  segments : list pystr
}.

Definition dot : pystr := lit ".".
Definition dotdot : pystr := lit "..".
Definition slash : pystr := lit "/".

Definition keep_segment (s : pystr) : bool :=
  negb (str_eqb s []) && negb (str_eqb s dot).

Definition path_of (s : pystr) : Path :=
  {| is_absolute := startswith slash s;
     segments := filter keep_segment (split_slash [] s) |}.

(** [p.parts] *)
Definition parts (p : Path) : list pystr :=
  (if is_absolute p then [slash] else []) ++ segments p.

(** [str(p)] *)
Definition path_str (p : Path) : pystr :=
  if is_absolute p then slash ++ join slash (segments p)
  else match segments p with
       | [] => dot
       | _ => join slash (segments p)
       end.

(** [p / q] for a second operand that is already a path. *)
Definition joinpath (p q : Path) : Path :=
  if is_absolute q then q
  else {| is_absolute := is_absolute p; segments := segments p ++ segments q |}.

(** [p / s] for a string [s]. *)
Definition div (p : Path) (s : pystr) : Path := joinpath p (path_of s).

(** [p.parent] *)
Definition parent (p : Path) : Path :=
  {| is_absolute := is_absolute p; segments := removelast (segments p) |}.

(** [p.name] *)
Definition name (p : Path) : pystr := last (segments p) [].

(** Index of the last [.] of [s], counted from the left, if any. *)
Fixpoint rfind_dot (i : nat) (s : pystr) : option nat :=
  match s with
  | [] => None
  | c :: s' =>
      match rfind_dot (S i) s' with
      | Some j => Some j
      | None => if N.eqb c 46 then Some i else None
      end
  end.

(** [p.stem]: the name without its last suffix; a name whose only dot
    is its first or its last character has no suffix. *)
Definition stem (p : Path) : pystr :=
  let n := name p in
  match rfind_dot 0 n with
  | Some i =>
      if (Nat.ltb 0 i && Nat.ltb i (length n - 1))%bool then firstn i n else n
  | None => n
  end.

(** [p.relative_to(base)]: the segments of [p] after those of [base];
    [None] where the source raises [ValueError]. *)
Fixpoint strip_prefix (base p : list pystr) : option (list pystr) :=
  match base, p with
  | [], _ => Some p
  | b :: base', x :: p' => if str_eqb b x then strip_prefix base' p' else None
  | _ :: _, [] => None
  end.

Definition relative_to (p base : Path) : option Path :=
  if Bool.eqb (is_absolute p) (is_absolute base) then
    match strip_prefix (segments base) (segments p) with
    | Some rest => Some {| is_absolute := false; segments := rest |}
    | None => None
    end
  else None.

(* ================================================================== *)
(** ** The hidden/system filter *)
(* ================================================================== *)

Definition obsidian_dir : pystr := lit ".obsidian".
Definition trash_dir : pystr := lit ".trash".

(** [is_hidden_or_system(path)] *)
Definition is_hidden_or_system (path : Path) : bool :=
  let path_str := path_str path in
  contains obsidian_dir path_str || contains trash_dir path_str ||
  existsb (startswith dot) (parts path).

(* ================================================================== *)
(** ** The file system *)
(* ================================================================== *)

(** Scope: a store of regular files and directories, all of them
    accessible, with names within the host's limits and without NUL,
    and with times that the host can render.  On such a store the
    primitives raise only as written below; symbolic links, denied
    access and names that are too long are outside it.  The modified
    time of a directory is not advanced when an entry is made or
    removed in it. *)

(** Exceptions of the host that the source catches. *)
Inductive exception :=
  | FileNotFoundError      (* ENOENT *)
  | NotADirectoryError     (* ENOTDIR *)
  | FileExistsError        (* EEXIST *)
  | IsADirectoryError      (* EISDIR *)
  | OtherOSError           (* ENOTEMPTY, EINVAL, EBUSY *)
  | UnicodeEncodeError
  | UnicodeDecodeError
  | ValueError
  | TypeError
  | KeyError (key : pystr).

Definition is_OSError (e : exception) : bool :=
  match e with
  | FileNotFoundError | NotADirectoryError | FileExistsError
  | IsADirectoryError | OtherOSError => true
  | _ => false
  end.

(** A computation that returns or raises. *)
Definition exn (A : Type) : Type := (A + exception)%type.
Definition ret {A} (a : A) : exn A := inl a.
Definition raise {A} (e : exception) : exn A := inr e.
Definition bind {A B} (m : exn A) (k : A -> exn B) : exn B :=
  match m with
  | inl a => k a
  | inr e => inr e
  end.
Notation "x <- m ;; k" := (bind m (fun x => k))
  (at level 61, m at next level, right associativity).

(** What a regular file holds: the UTF-8 encoding of a text, or bytes
    that are not valid UTF-8 (of which only the count matters). *)
Inductive filedata :=
  | Text (s : pystr)
  | Raw (nbytes : N).

(** Regular files and directories (no symbolic links, every entry
    accessible), each with its modification time. *)
Inductive node :=
  | File (d : filedata) (mtime : Z)
  | Dir (mtime : Z).

(** A location is the list of names from the root directory down. *)
Definition location := list pystr.

(** The store lists its entries in the order in which a directory scan
    meets them.  The root directory, location [[]], always exists. *)
Definition store := list (location * node).

Fixpoint loc_eqb (a b : location) : bool :=
  match a, b with
  | [], [] => true
  | x :: a', y :: b' => str_eqb x y && loc_eqb a' b'
  | _, _ => false
  end.

Fixpoint lookup (k : location) (st : store) : option node :=
  match st with
  | [] => None
  | (k', n) :: st' => if loc_eqb k k' then Some n else lookup k st'
  end.

Definition node_at (st : store) (k : location) : option node :=
  match k with
  | [] => Some (Dir 0)
  | _ => lookup k st
  end.

(** [set k n st]: replace the entry at [k], or add it at the end. *)
Fixpoint set (k : location) (n : node) (st : store) : store :=
  match st with
  | [] => [(k, n)]
  | (k', n') :: st' =>
      if loc_eqb k k' then (k, n) :: st' else (k', n') :: set k n st'
  end.

Fixpoint remove (k : location) (st : store) : store :=
  match st with
  | [] => []
  | (k', n') :: st' =>
      if loc_eqb k k' then remove k st' else (k', n') :: remove k st'
  end.

(** The call's environment: the configured vault path, the process's
    working directory and the time of the call. *)
Record host := {
  VAULT_PATH : pystr;
  cwd : location;
  now : Z
}.

(** Path resolution as the kernel does it: every directory on the way
    has to exist; [..] steps to the parent (the root is its own). *)
Fixpoint walk (st : store) (cur : location) (comps : list pystr)
  : exn location :=
  match comps with
  | [] => ret cur
  | c :: rest =>
      match node_at st cur with
      | None => raise FileNotFoundError
      | Some (File _ _) => raise NotADirectoryError
      | Some (Dir _) =>
          walk st (if str_eqb c dotdot then removelast cur else cur ++ [c]) rest
      end
  end.

Definition start_of (h : host) (p : Path) : location :=
  if is_absolute p then [] else cwd h.

Definition locate (h : host) (st : store) (p : Path) : exn location :=
  walk st (start_of h p) (segments p).

(** The entry a path names, if the path resolves and the entry exists. *)
Definition entry_at (h : host) (st : store) (p : Path) : exn (location * node) :=
  k <- locate h st p ;;
  match node_at st k with
  | Some n => ret (k, n)
  | None => raise FileNotFoundError
  end.

(** [p.exists()] *)
Definition exists_ (h : host) (st : store) (p : Path) : bool :=
  match entry_at h st p with
  | inl _ => true
  | inr _ => false
  end.

(** [p.is_dir()] *)
Definition is_dir (h : host) (st : store) (p : Path) : bool :=
  match entry_at h st p with
  | inl (_, Dir _) => true
  | _ => false
  end.

(** [p.resolve()]: without symbolic links this is the absolute path
    with its [..] segments folded, whether or not anything exists. *)
Definition fold_dotdot (start : location) (comps : list pystr) : location :=
  fold_left
    (fun cur c => if str_eqb c dotdot then removelast cur else cur ++ [c])
    comps start.

Definition resolve (h : host) (p : Path) : Path :=
  {| is_absolute := true;
     segments := fold_dotdot (start_of h p) (segments p) |}.

(** Bytes of the UTF-8 encoding. *)
Definition utf8_len (c : N) : N :=
  if (c <? 128)%N then 1%N
  else if (c <? 2048)%N then 2%N
  else if (c <? 65536)%N then 3%N
  else 4%N.

Definition utf8_size (s : pystr) : N :=
  fold_right (fun c n => (utf8_len c + n)%N) 0%N s.

(** A text has a UTF-8 encoding unless it holds a surrogate. *)
Definition encodable (s : pystr) : bool :=
  forallb (fun c => negb ((55296 <=? c) && (c <=? 57343))%N) s.

Record stat_result := {
  st_mtime : Z;
  st_size : N
}.

(** Size that [stat] reports for a directory. *)
Definition dir_size : N := 4096.

Definition stat_of (n : node) : stat_result :=
  match n with
  | File (Text s) m => {| st_mtime := m; st_size := utf8_size s |}
  | File (Raw b) m => {| st_mtime := m; st_size := b |}
  | Dir m => {| st_mtime := m; st_size := dir_size |}
  end.

(** [p.stat()] *)
Definition stat (h : host) (st : store) (p : Path) : exn stat_result :=
  kn <- entry_at h st p ;;
  ret (stat_of (snd kn)).

(** Reading in text mode turns every [\r\n] and every lone [\r] into
    [\n] (universal newlines). *)
Fixpoint universal_newlines (s : pystr) : pystr :=
  match s with
  | [] => []
  | c :: r =>
      if N.eqb c 13 then
        match r with
        | d :: r' => if N.eqb d 10 then 10%N :: universal_newlines r'
                     else 10%N :: universal_newlines r
        | [] => [10%N]
        end
      else c :: universal_newlines r
  end.

(** [p.read_text(encoding="utf-8")] *)
Definition read_text (h : host) (st : store) (p : Path) : exn pystr :=
  kn <- entry_at h st p ;;
  match snd kn with
  | Dir _ => raise IsADirectoryError
  | File (Raw _) _ => raise UnicodeDecodeError
  | File (Text s) _ => ret (universal_newlines s)
  end.

(** Stateful primitives return the new store with their outcome: a
    primitive that raises may already have changed the store. *)
Definition io (A : Type) : Type := (store * exn A)%type.

(** A path whose last segment names an entry of its parent directory
    (it has one, and it is not [..]) can be created. *)
Definition creatable (p : Path) : bool :=
  match rev (segments p) with
  | [] => false
  | c :: _ => negb (str_eqb c dotdot)
  end.

(** [os.mkdir(p)] *)
Definition os_mkdir (h : host) (p : Path) (st : store) : exn store :=
  k <- locate h st p ;;
  match node_at st k with
  | Some _ => raise FileExistsError
  | None =>
      if creatable p then ret (set k (Dir (now h)) st)
      else raise FileNotFoundError
  end.

(** [p.mkdir(parents=False, exist_ok=True)] *)
Definition mkdir_exist_ok (h : host) (p : Path) (st : store) : io unit :=
  match os_mkdir h p st with
  | inl st' => (st', ret tt)
  | inr FileNotFoundError => (st, raise FileNotFoundError)
  | inr e =>
      if is_OSError e && is_dir h st p then (st, ret tt) else (st, raise e)
  end.

(** [p.mkdir(parents=True, exist_ok=True)]; [n] counts the segments of
    [p], so that [n = 0] is the library's test [p.parent == p]. *)
Fixpoint mkdir_parents (n : nat) (h : host) (p : Path) (st : store) : io unit :=
  match os_mkdir h p st with
  | inl st' => (st', ret tt)
  | inr FileNotFoundError =>
      match n with
      | O => (st, raise FileNotFoundError)
      | S n' =>
          match mkdir_parents n' h (parent p) st with
          | (st1, inl _) => mkdir_exist_ok h p st1
          | (st1, inr e) => (st1, raise e)
          end
      end
  | inr e =>
      if is_OSError e && is_dir h st p then (st, ret tt) else (st, raise e)
  end.

Definition mkdir (h : host) (p : Path) (st : store) : io unit :=
  mkdir_parents (length (segments p)) h p st.

(** [p.write_text(content, encoding="utf-8")]: the file is opened for
    writing (created, or emptied) before the text is encoded. *)
Definition write_text (h : host) (p : Path) (content : pystr) (st : store)
  : io unit :=
  match locate h st p with
  | inr e => (st, raise e)
  | inl k =>
      match node_at st k with
      | Some (Dir _) => (st, raise IsADirectoryError)
      | Some (File _ _) =>
          if encodable content then (set k (File (Text content) (now h)) st, ret tt)
          else (set k (File (Text []) (now h)) st, raise UnicodeEncodeError)
      | None =>
          if creatable p then
            if encodable content
            then (set k (File (Text content) (now h)) st, ret tt)
            else (set k (File (Text []) (now h)) st, raise UnicodeEncodeError)
          else (st, raise FileNotFoundError)
      end
  end.

(** Has the directory at [k] an entry below it? *)
Definition has_child (k : location) (st : store) : bool :=
  existsb (fun kn => match strip_prefix k (fst kn) with
                     | Some (_ :: _) => true
                     | _ => false
                     end) st.

(** Move the subtree at [src] to [dst]. *)
Definition rekey (src dst : location) (st : store) : store :=
  map (fun kn => match strip_prefix src (fst kn) with
                 | Some rest => (dst ++ rest, snd kn)
                 | None => kn
                 end) st.

(** [src.rename(dst)] ([os.rename]): a file replaces a file, a
    directory replaces an empty directory, the same entry is left as
    it is. *)
Definition rename (h : host) (src dst : Path) (st : store) : io unit :=
  match entry_at h st src, locate h st dst with
  | inr e, _ => (st, raise e)
  | _, inr e => (st, raise e)
  | inl (ks, ns), inl kd =>
      if loc_eqb ks kd then (st, ret tt)
      else match ks with
      | [] => (st, raise OtherOSError)
      | _ =>
        match ns, node_at st kd with
        | File _ _, Some (Dir _) => (st, raise IsADirectoryError)
        | File _ _, Some (File _ _) => (set kd ns (remove ks st), ret tt)
        | File _ _, None =>
            if creatable dst then (set kd ns (remove ks st), ret tt)
            else (st, raise FileNotFoundError)
        | Dir _, Some (File _ _) => (st, raise NotADirectoryError)
        | Dir _, other =>
            match strip_prefix ks kd with
            | Some _ => (st, raise OtherOSError)
            | None =>
                match other with
                | Some _ =>
                    if has_child kd st then (st, raise OtherOSError)
                    else (rekey ks kd (remove kd st), ret tt)
                | None =>
                    if creatable dst then (rekey ks kd st, ret tt)
                    else (st, raise FileNotFoundError)
                end
            end
        end
      end
  end.

(** [p.rglob("*.md")] ([md_only]) and [p.rglob("*")]: every entry
    below the directory [p], as [p] extended by the entry's relative
    segments; nothing when [p] is not a directory.  The pattern [*.md]
    is matched against the entry's name, with case. *)
Definition md_suffix : pystr := lit ".md".

Definition rglob (md_only : bool) (h : host) (st : store) (p : Path)
  : list Path :=
  match entry_at h st p with
  | inl (k, Dir _) =>
      flat_map
        (fun kn =>
           match strip_prefix k (fst kn) with
           | Some (c :: rest) =>
               if negb md_only || endswith md_suffix (last (c :: rest) [])
               then [joinpath p {| is_absolute := false; segments := c :: rest |}]
               else []
           | _ => []
           end) st
  | _ => []
  end.

(* ================================================================== *)
(** ** Results *)
(* ================================================================== *)

(** The text of an error: a message the source formats itself, or the
    host's rendering [str(e)] of a caught exception. *)
Inductive message :=
  | Msg (text : pystr)
  | ExcStr (e : exception).

(** One object of a listing: [name], [path], [modified] and, by
    operation, [size] or [snippet].  [modified] is the timestamp whose
    ISO-8601 rendering the source returns and sorts by; renderings of
    one time zone offset are ordered as their timestamps are. *)
Record entry := {
  e_name : pystr;
  e_path : pystr;
  e_modified : Z;
  e_size : option N;
  e_snippet : option pystr
}.

(** The dictionaries and lists the operations return. *)
Inductive response :=
  | Entries (l : list entry)
  | Folders (l : list pystr)
  | Tags (d : list (pystr * list pystr))
  | Note (name path content : pystr) (modified : Z) (size : N)
  | Saved (path message : pystr)
  | Trashed (message : pystr)
  | Info (vault_path : pystr) (note_count folder_count : nat)
  | Error (m : message).

Definition not_found (path : pystr) : response :=
  Error (Msg (lit "File not found: " ++ path)).

Definition access_denied : response :=
  Error (Msg (lit "Access denied: path outside vault")).

(* ================================================================== *)
(** ** The note store *)
(* ================================================================== *)

(** [get_vault_path()] *)
Definition get_vault_path (h : host) : Path := path_of (VAULT_PATH h).

(** [str(file_path.resolve()).startswith(str(vault.resolve()))] *)
Definition inside_vault (h : host) (file_path : Path) : bool :=
  startswith (path_str (resolve h (get_vault_path h)))
             (path_str (resolve h file_path)).

(** [read_note(path)] *)
Definition read_note (h : host) (st : store) (path : pystr) : response :=
  let vault := get_vault_path h in
  let file_path := div vault path in
  if negb (exists_ h st file_path) then not_found path
  else if negb (inside_vault h file_path) then access_denied
  else
    match (content <- read_text h st file_path ;;
           s <- stat h st file_path ;;
           ret (Note (stem file_path) path content (st_mtime s) (st_size s)))
    with
    | inl r => r
    | inr e => Error (ExcStr e)
    end.

(** [write_note(path, content)] *)
Definition write_note (h : host) (st : store) (path content : pystr)
  : store * response :=
  let vault := get_vault_path h in
  let path := if negb (endswith md_suffix path) then path ++ md_suffix else path in
  let file_path := div vault path in
  if negb (inside_vault h file_path) then (st, access_denied)
  else
    match mkdir h (parent file_path) st with
    | (st1, inr e) => (st1, Error (ExcStr e))
    | (st1, inl _) =>
        match write_text h file_path content st1 with
        | (st2, inr e) => (st2, Error (ExcStr e))
        | (st2, inl _) => (st2, Saved path (lit "Note saved: " ++ path))
        end
    end.

(** [delete_note(path)] *)
Definition delete_note (h : host) (st : store) (path : pystr)
  : store * response :=
  let vault := get_vault_path h in
  let file_path := div vault path in
  if negb (exists_ h st file_path) then (st, not_found path)
  else if negb (inside_vault h file_path) then (st, access_denied)
  else
    let trash_path := div (div vault trash_dir) path in
    match mkdir h (parent trash_path) st with
    | (st1, inr e) => (st1, Error (ExcStr e))
    | (st1, inl _) =>
        match rename h file_path trash_path st1 with
        | (st2, inr e) => (st2, Error (ExcStr e))
        | (st2, inl _) => (st2, Trashed (lit "Moved to trash: " ++ path))
        end
    end.

(* ================================================================== *)
(** ** The queries *)
(* ================================================================== *)

(** [sorted(files, key=lambda x: x["modified"], reverse=True)]: newest
    first, entries of equal time in their first order. *)
Fixpoint insert_desc (x : entry) (l : list entry) : list entry :=
  match l with
  | [] => [x]
  | y :: l' =>
      if (e_modified x <? e_modified y)%Z then y :: insert_desc x l'
      else x :: l
  end.

Fixpoint sorted_desc (l : list entry) : list entry :=
  match l with
  | [] => []
  | x :: l' => insert_desc x (sorted_desc l')
  end.

(** The dictionary that the listing builds from one file. *)
Definition list_entry (h : host) (st : store) (vault md_file : Path)
  : exn entry :=
  s <- stat h st md_file ;;
  match relative_to md_file vault with
  | None => raise ValueError
  | Some rel =>
      ret {| e_name := stem md_file; e_path := path_str rel;
             e_modified := st_mtime s; e_size := Some (st_size s);
             e_snippet := None |}
  end.

(** The loop of [list_markdown_files] over what the scan yields. *)
Fixpoint list_loop (h : host) (st : store) (vault : Path) (limit : Z)
  (scan : list Path) (files : list entry) : list entry :=
  match scan with
  | [] => files
  | md_file :: rest =>
      if is_hidden_or_system md_file then list_loop h st vault limit rest files
      else
        match list_entry h st vault md_file with
        | inr _ => list_loop h st vault limit rest files
        | inl e =>
            let files := files ++ [e] in
            if (Z.of_nat (length files) >=? limit)%Z then files
            else list_loop h st vault limit rest files
        end
  end.

(** [list_markdown_files(folder, limit)]; an absent or empty [folder]
    is the whole vault. *)
Definition list_markdown_files (h : host) (st : store)
  (folder : option pystr) (limit : Z) : list entry :=
  let vault := get_vault_path h in
  let search_path :=
    match folder with
    | None | Some [] => vault
    | Some f => div vault f
    end in
  if negb (exists_ h st search_path) then []
  else sorted_desc (list_loop h st vault limit (rglob true h st search_path) []).

(** The dictionary that the title search builds from one file. *)
Definition title_entry (h : host) (st : store) (vault md_file : Path)
  : exn entry :=
  s <- stat h st md_file ;;
  match relative_to md_file vault with
  | None => raise ValueError
  | Some rel =>
      ret {| e_name := stem md_file; e_path := path_str rel;
             e_modified := st_mtime s; e_size := None; e_snippet := None |}
  end.

Fixpoint title_loop (U : unicode) (h : host) (st : store) (vault : Path)
  (query_lower : pystr) (limit : Z) (scan : list Path) (results : list entry)
  : list entry :=
  match scan with
  | [] => results
  | md_file :: rest =>
      if is_hidden_or_system md_file
      then title_loop U h st vault query_lower limit rest results
      else if contains query_lower (lower U (stem md_file)) then
        match title_entry h st vault md_file with
        | inr _ => title_loop U h st vault query_lower limit rest results
        | inl e =>
            let results := results ++ [e] in
            if (Z.of_nat (length results) >=? limit)%Z then results
            else title_loop U h st vault query_lower limit rest results
        end
      else title_loop U h st vault query_lower limit rest results
  end.

(** [search_by_title(query, limit)] *)
Definition search_by_title (U : unicode) (h : host) (st : store)
  (query : pystr) (limit : Z) : list entry :=
  let vault := get_vault_path h in
  title_loop U h st vault (lower U query) limit (rglob true h st vault) [].

Definition ellipsis : pystr := lit "...".

(** The snippet of [full_text_search] for a content that has a match. *)
Definition snippet_of (U : unicode) (query content : pystr) : pystr :=
  let idx := find (lower U query) (lower U content) in
  let start := Z.max 0 (idx - 50) in
  let end_ := Z.min (len content) (idx + len query + 50) in
  replace_newlines (slice start end_ content).

(** The body of the [try] of [full_text_search] for one file: the
    dictionary to append, or nothing when the content has no match. *)
Definition text_entry (U : unicode) (h : host) (st : store)
  (vault md_file : Path) (query : pystr) : exn (option entry) :=
  content <- read_text h st md_file ;;
  if contains (lower U query) (lower U content) then
    let snippet := snippet_of U query content in
    s <- stat h st md_file ;;
    match relative_to md_file vault with
    | None => raise ValueError
    | Some rel =>
        ret (Some {| e_name := stem md_file; e_path := path_str rel;
                     e_modified := st_mtime s; e_size := None;
                     e_snippet := Some (ellipsis ++ snippet ++ ellipsis) |})
    end
  else ret None.

Fixpoint text_loop (U : unicode) (h : host) (st : store) (vault : Path)
  (query : pystr) (limit : Z) (scan : list Path) (results : list entry)
  : list entry :=
  match scan with
  | [] => results
  | md_file :: rest =>
      if is_hidden_or_system md_file
      then text_loop U h st vault query limit rest results
      else
        match text_entry U h st vault md_file query with
        | inl (Some e) =>
            let results := results ++ [e] in
            if (Z.of_nat (length results) >=? limit)%Z then results
            else text_loop U h st vault query limit rest results
        | _ => text_loop U h st vault query limit rest results
        end
  end.

(** [full_text_search(query, limit)] *)
Definition full_text_search (U : unicode) (h : host) (st : store)
  (query : pystr) (limit : Z) : list entry :=
  let vault := get_vault_path h in
  text_loop U h st vault query limit (rglob true h st vault) [].

(** Order of [str]: by code points, a proper prefix first. *)
Fixpoint str_leb (a b : pystr) : bool :=
  match a, b with
  | [], _ => true
  | _ :: _, [] => false
  | x :: a', y :: b' =>
      if (x <? y)%N then true
      else if (y <? x)%N then false
      else str_leb a' b'
  end.

(** [sorted(folders)] *)
Fixpoint insert_str (x : pystr) (l : list pystr) : list pystr :=
  match l with
  | [] => [x]
  | y :: l' => if str_leb x y then x :: l else y :: insert_str x l'
  end.

Fixpoint sorted_str (l : list pystr) : list pystr :=
  match l with
  | [] => []
  | x :: l' => insert_str x (sorted_str l')
  end.

(** [list_folders()]; [relative_to] raises (uncaught) only off the
    scanned tree, which is why the result is an [exn]. *)
Fixpoint folders_loop (h : host) (st : store) (vault : Path)
  (scan : list Path) : exn (list pystr) :=
  match scan with
  | [] => ret []
  | item :: rest =>
      if is_dir h st item && negb (is_hidden_or_system item) then
        match relative_to item vault with
        | None => raise ValueError
        | Some rel =>
            l <- folders_loop h st vault rest ;; ret (path_str rel :: l)
        end
      else folders_loop h st vault rest
  end.

Definition list_folders (h : host) (st : store) : exn (list pystr) :=
  let vault := get_vault_path h in
  l <- folders_loop h st vault (rglob false h st vault) ;;
  ret (sorted_str l).

(** The character class of the tag pattern: [\w], or a code point
    from U+0080 to U+FFFF. *)
Definition tag_char (U : unicode) (c : N) : bool :=
  word_cp U c || ((128 <=? c) && (c <=? 65535))%N.

(** The longest prefix of [s] made of characters of the class. *)
Fixpoint take_while (f : N -> bool) (s : pystr) : pystr :=
  match s with
  | c :: s' => if f c then c :: take_while f s' else []
  | [] => []
  end.

Fixpoint drop_while (f : N -> bool) (s : pystr) : pystr :=
  match s with
  | c :: s' => if f c then drop_while f s' else s
  | [] => []
  end.

(** [re.findall] of the tag pattern (a [#], then one or more
    characters of the class, which are the group): the matches from left
    to right, each as long as it can be, the next one sought after the
    end of the last; with one group, the list holds the group's text.
    [fuel] bounds the positions tried and [length s] is enough. *)
Fixpoint findall_from (U : unicode) (fuel : nat) (s : pystr) : list pystr :=
  match fuel, s with
  | S fuel', c :: s' =>
      if N.eqb c 35 then
        match take_while (tag_char U) s' with
        | [] => findall_from U fuel' s'
        | tag => tag :: findall_from U fuel' (drop_while (tag_char U) s')
        end
      else findall_from U fuel' s'
  | _, _ => []
  end.

Definition findall_tags (U : unicode) (s : pystr) : list pystr :=
  findall_from U (length s) s.

(** [tags[tag].append(name)], the key added at the end when new. *)
Fixpoint add_tag (tag name : pystr) (tags : list (pystr * list pystr))
  : list (pystr * list pystr) :=
  match tags with
  | [] => [(tag, [name])]
  | (t, names) :: tags' =>
      if str_eqb tag t then (t, names ++ [name]) :: tags'
      else (t, names) :: add_tag tag name tags'
  end.

Fixpoint tags_loop (U : unicode) (h : host) (st : store) (scan : list Path)
  (tags : list (pystr * list pystr)) : list (pystr * list pystr) :=
  match scan with
  | [] => tags
  | md_file :: rest =>
      if is_hidden_or_system md_file then tags_loop U h st rest tags
      else
        match read_text h st md_file with
        | inr _ => tags_loop U h st rest tags
        | inl content =>
            tags_loop U h st rest
              (fold_left (fun tags tag => add_tag tag (stem md_file) tags)
                         (findall_tags U content) tags)
        end
  end.

(** [get_tags()] *)
Definition get_tags (U : unicode) (h : host) (st : store)
  : list (pystr * list pystr) :=
  tags_loop U h st (rglob true h st (get_vault_path h)) [].

(** [tags[tag]] of the result, [None] for a key that is absent. *)
Fixpoint tag_lookup (tag : pystr) (tags : list (pystr * list pystr))
  : option (list pystr) :=
  match tags with
  | [] => None
  | (t, names) :: tags' =>
      if str_eqb tag t then Some names else tag_lookup tag tags'
  end.

(** [get_vault_info()] *)
Definition get_vault_info (h : host) (st : store) : response :=
  let vault := get_vault_path h in
  if negb (exists_ h st vault)
  then Error (Msg (lit "Vault not found: " ++ path_str vault))
  else
    let notes :=
      filter (fun f => negb (is_hidden_or_system f)) (rglob true h st vault) in
    let folders :=
      filter (fun d => is_dir h st d && negb (is_hidden_or_system d))
             (rglob false h st vault) in
    Info (path_str vault) (length notes) (length folders).

(* ================================================================== *)
(** ** The dispatcher *)
(* ================================================================== *)

(** The argument object of a call: each key is absent or holds a value
    of the type that the tool schemas of [list_tools] declare for it. *)
Record arguments := {
  arg_folder : option pystr;
  arg_limit : option Z;
  arg_path : option pystr;
  arg_content : option pystr;
  arg_query : option pystr
}.

(** [arguments[key]] *)
Definition required (key : string) (v : option pystr) : exn pystr :=
  match v with
  | Some s => ret s
  | None => raise (KeyError (lit key))
  end.

(** [arguments.get("limit", default)] *)
Definition limit_or (default : Z) (a : arguments) : Z :=
  match arg_limit a with
  | Some l => l
  | None => default
  end.

Definition tool (s : string) (name : pystr) : bool := str_eqb name (lit s).

(** The body of the [try] of [call_tool]: the store after the call and
    the result, or the exception that escapes the operation. *)
Definition dispatch (U : unicode) (h : host) (st : store) (name : pystr)
  (a : arguments) : store * exn response :=
  if tool "list_notes" name then
    (st, ret (Entries (list_markdown_files h st (arg_folder a) (limit_or 50 a))))
  else if tool "get_note" name then
    (st, path <- required "path" (arg_path a) ;; ret (read_note h st path))
  else if tool "create_note" name || tool "update_note" name then
    match (path <- required "path" (arg_path a) ;;
           content <- required "content" (arg_content a) ;;
           ret (path, content)) with
    | inl (path, content) =>
        let (st', r) := write_note h st path content in (st', ret r)
    | inr e => (st, raise e)
    end
  else if tool "search_notes" name then
    (st, query <- required "query" (arg_query a) ;;
         ret (Entries (search_by_title U h st query (limit_or 20 a))))
  else if tool "full_text_search" name then
    (st, query <- required "query" (arg_query a) ;;
         ret (Entries (full_text_search U h st query (limit_or 20 a))))
  else if tool "list_folders" name then
    (st, l <- list_folders h st ;; ret (Folders l))
  else if tool "get_tags" name then
    (st, ret (Tags (get_tags U h st)))
  else if tool "delete_note" name then
    match required "path" (arg_path a) with
    | inl path => let (st', r) := delete_note h st path in (st', ret r)
    | inr e => (st, raise e)
    end
  else if tool "get_vault_info" name then
    (st, ret (get_vault_info h st))
  else (st, ret (Error (Msg (lit "Unknown tool: " ++ name)))).

(** [call_tool(name, arguments)]: the object that is serialised into
    the reply; an exception becomes an error object. *)
Definition call_tool (U : unicode) (h : host) (st : store) (name : pystr)
  (a : arguments) : store * response :=
  match dispatch U h st name a with
  | (st', inl r) => (st', r)
  | (st', inr e) => (st', Error (ExcStr e))
  end.

(** The names that [call_tool] serves. *)
Definition tool_names : list pystr :=
  map lit ["list_notes"; "get_note"; "create_note"; "update_note";
           "search_notes"; "full_text_search"; "list_folders"; "get_tags";
           "delete_note"; "get_vault_info"]%string.

(* ================================================================== *)
(** ** The specification's wording, for comparison *)
(* ================================================================== *)


(** [sub] occurs in [s]. *)
Definition occurs (sub s : pystr) : Prop :=
  exists a b, s = a ++ sub ++ b.

(** The listing as the specification words it: collect every match,
    sort all of them newest first, then keep [limit]. *)
Fixpoint collect_all (h : host) (st : store) (vault : Path)
  (scan : list Path) : list entry :=
  match scan with
  | [] => []
  | md_file :: rest =>
      if is_hidden_or_system md_file then collect_all h st vault rest
      else match list_entry h st vault md_file with
           | inr _ => collect_all h st vault rest
           | inl e => e :: collect_all h st vault rest
           end
  end.

Definition spec_list_notes (h : host) (st : store) (limit : Z) : list entry :=
  let vault := get_vault_path h in
  firstn (Z.to_nat limit)
         (sorted_desc (collect_all h st vault (rglob true h st vault))).

(* ================================================================== *)
(** ** Concrete vaults for the examples *)
(* ================================================================== *)

(** A vault [/v] with two notes; the scan meets the older one first. *)
Definition host_v : host :=
  {| VAULT_PATH := lit "/v"; cwd := []; now := 100 |}.

Definition vault_two_notes : store :=
  [ ([lit "v"], Dir 0);
    ([lit "v"; lit "a.md"], File (Text (lit "old")) 1);
    ([lit "v"; lit "b.md"], File (Text (lit "new")) 2) ].

(** A vault below a dot directory. *)
Definition host_dotted : host :=
  {| VAULT_PATH := lit "/home/u/.notes/vault"; cwd := []; now := 100 |}.

Definition vault_dotted : store :=
  [ ([lit "home"], Dir 0);
    ([lit "home"; lit "u"], Dir 0);
    ([lit "home"; lit "u"; lit ".notes"], Dir 0);
    ([lit "home"; lit "u"; lit ".notes"; lit "vault"], Dir 0);
    ([lit "home"; lit "u"; lit ".notes"; lit "vault"; lit "a.md"],
     File (Text (lit "see #tag")) 1) ].

(** The path that [write_note] writes to: [path], with the Markdown
    extension added when it lacks it. *)
Definition md_path (path : pystr) : pystr :=
  if negb (endswith md_suffix path) then path ++ md_suffix else path.

Definition is_directory (o : option node) : Prop :=
  exists m, o = Some (Dir m).

(** *** The scanning loops, as one loop

    The three loops with a bound have one shape: each scanned file
    gives a dictionary or is passed over; a dictionary is appended and
    the loop stops when the results have reached [limit]. *)
Fixpoint capped (limit : Z) (found : list (option entry))
  (results : list entry) : list entry :=
  match found with
  | [] => results
  | None :: rest => capped limit rest results
  | Some e :: rest =>
      let results := results ++ [e] in
      if (Z.of_nat (length results) >=? limit)%Z then results
      else capped limit rest results
  end.

(** The dictionaries among what was found. *)
Fixpoint somes (found : list (option entry)) : list entry :=
  match found with
  | [] => []
  | None :: rest => somes rest
  | Some e :: rest => e :: somes rest
  end.

(** What one file contributes to the listing, *)
Definition list_step (h : host) (st : store) (vault md_file : Path)
  : option entry :=
  if is_hidden_or_system md_file then None
  else match list_entry h st vault md_file with
       | inl e => Some e
       | inr _ => None
       end.

(** to the title search, *)
Definition title_step (U : unicode) (h : host) (st : store) (vault : Path)
  (query_lower : pystr) (md_file : Path) : option entry :=
  if is_hidden_or_system md_file then None
  else if contains query_lower (lower U (stem md_file)) then
    match title_entry h st vault md_file with
    | inl e => Some e
    | inr _ => None
    end
  else None.

(** and to the full-text search. *)
Definition text_step (U : unicode) (h : host) (st : store) (vault : Path)
  (query : pystr) (md_file : Path) : option entry :=
  if is_hidden_or_system md_file then None
  else match text_entry U h st vault md_file query with
       | inl (Some e) => Some e
       | _ => None
       end.

(** The subtree that [list_markdown_files] scans. *)
Definition search_path (h : host) (folder : option pystr) : Path :=
  match folder with
  | None | Some [] => get_vault_path h
  | Some f => div (get_vault_path h) f
  end.

(** The two dictionaries of the listing of [vault_two_notes]. *)
Definition entry_a : entry :=
  {| e_name := lit "a"; e_path := lit "a.md"; e_modified := 1;
     e_size := Some 3%N; e_snippet := None |}.

Definition entry_b : entry :=
  {| e_name := lit "b"; e_path := lit "b.md"; e_modified := 2;
     e_size := Some 3%N; e_snippet := None |}.

(** Newest first. *)
Definition newest_first (l : list entry) : Prop :=
  StronglySorted (fun x y => (e_modified y <= e_modified x)%Z) l.

(** What a file contributes to a title search that every name
    matches, *)
Definition every_title (h : host) (st : store) (vault md_file : Path)
  : option entry :=
  if is_hidden_or_system md_file then None
  else match title_entry h st vault md_file with
       | inl e => Some e
       | inr _ => None
       end.

(** and to a full-text search that every content matches at offset 0:
    the snippet is the content's first 50 characters. *)
Definition every_text (h : host) (st : store) (vault md_file : Path)
  : option entry :=
  if is_hidden_or_system md_file then None
  else
    match read_text h st md_file, stat h st md_file,
          relative_to md_file vault with
    | inl content, inl s, Some rel =>
        Some {| e_name := stem md_file; e_path := path_str rel;
                e_modified := st_mtime s; e_size := None;
                e_snippet :=
                  Some (ellipsis ++ replace_newlines (firstn 50 content)
                          ++ ellipsis) |}
    | _, _, _ => None
    end.

(** A note of 200 characters: a capital I with dot above (U+0130),
    99 times [x], the word [apple] at offset 100, 95 times [y]. *)
Definition note_dotted_I : pystr :=
  [304%N] ++ repeat 120%N 99 ++ lit "apple" ++ repeat 121%N 95.

Definition vault_dotted_I : store :=
  [ ([lit "v"], Dir 0);
    ([lit "v"; lit "n.md"], File (Text note_dotted_I) 1) ].

(** *** Tags *)





(** How often [t] is among the tags found. *)
Fixpoint count_tag (t : pystr) (found : list pystr) : nat :=
  match found with
  | [] => 0
  | x :: rest => (if str_eqb t x then 1 else 0) + count_tag t rest
  end.

(** The display names that the scan gives for tag [t]: that of each
    readable note that is not hidden, once for each occurrence. *)
Definition names_of (U : unicode) (h : host) (st : store) (t : pystr)
  (scan : list Path) : list pystr :=
  flat_map
    (fun f =>
       if is_hidden_or_system f then []
       else match read_text h st f with
            | inl content => repeat (stem f) (count_tag t (findall_tags U content))
            | inr _ => []
            end) scan.

(** A key is in the mapping when some name was appended for it. *)
Definition extend (o : option (list pystr)) (names : list pystr)
  : option (list pystr) :=
  match o, names with
  | None, [] => None
  | None, _ => Some names
  | Some l, _ => Some (l ++ names)
  end.


(** A vault [/a/b] with one note. *)
Definition host_ab : host :=
  {| VAULT_PATH := lit "/a/b"; cwd := []; now := 100 |}.

Definition vault_ab : store :=
  [ ([lit "a"], Dir 0);
    ([lit "a"; lit "b"], Dir 0);
    ([lit "a"; lit "b"; lit "n.md"], File (Text (lit "kept")) 1) ].

(** A plain relative path: not rooted, with a name, without [..]. *)
Definition plain (path : pystr) : Prop :=
  is_absolute (path_of path) = false /\
  segments (path_of path) <> [] /\
  ~ In dotdot (segments (path_of path)).

(** Every directory of [st] is a directory of [st']. *)
Definition dirs_kept (st st' : store) : Prop :=
  forall k, is_directory (node_at st k) -> is_directory (node_at st' k).

(** Every entry of [st] is an entry of [st']. *)
Definition grows (st st' : store) : Prop :=
  forall k n, node_at st k = Some n -> node_at st' k = Some n.

(** Ascending order of [str]. *)
Definition ascending (l : list pystr) : Prop :=
  StronglySorted (fun a b => str_leb a b = true) l.

(** The title dictionary of [a.md] in [vault_two_notes]. *)
Definition title_a : entry :=
  {| e_name := lit "a"; e_path := lit "a.md"; e_modified := 1;
     e_size := None; e_snippet := None |}.

(** A vault with folders, one of them hidden, and a note in each. *)
Definition vault_folders : store :=
  [ ([lit "v"], Dir 0);
    ([lit "v"; lit "work"], Dir 0);
    ([lit "v"; lit "home"], Dir 0);
    ([lit "v"; lit ".obsidian"], Dir 0);
    ([lit "v"; lit "work"; lit "plan.md"], File (Text (lit "Plan #todo")) 5);
    ([lit "v"; lit "home"; lit "list.md"], File (Text (lit "milk")) 7);
    ([lit "v"; lit ".obsidian"; lit "app.md"], File (Text (lit "cfg")) 9) ].

(** *** The tool list *)

(** One property of a tool's input schema. *)
Record schema_property := {
  prop_name : string;
  prop_type : string;
  prop_description : string;
  prop_default : option Z
}.

(** A [Tool] of [list_tools]: its name, its description, and of its
    input schema (an object) the properties and the required keys (no
    [required] entry is no required key). *)
Record Tool := {
  tool_name : string;
  tool_description : string;
  tool_properties : list schema_property;
  tool_required : list string
}.

Definition prop (n t d : string) : schema_property :=
  {| prop_name := n; prop_type := t; prop_description := d;
     prop_default := None |}.

Definition prop_limit (d : string) (default : Z) : schema_property :=
  {| prop_name := "limit"; prop_type := "integer"; prop_description := d;
     prop_default := Some default |}.

(** [list_tools()] *)
Definition list_tools : list Tool :=
  [ {| tool_name := "list_notes";
       tool_description := "List markdown notes in the Obsidian vault";
       tool_properties :=
         [prop "folder" "string" "Optional folder path to filter";
          prop_limit "Max results (default 50)" 50];
       tool_required := [] |};
    {| tool_name := "get_note";
       tool_description := "Read a note's content by path";
       tool_properties :=
         [prop "path" "string" "Path to the note (e.g., 'folder/note.md')"];
       tool_required := ["path"] |};
    {| tool_name := "create_note";
       tool_description := "Create a new note or overwrite existing";
       tool_properties :=
         [prop "path" "string" "Path for the note (e.g., 'folder/note.md')";
          prop "content" "string" "Markdown content"];
       tool_required := ["path"; "content"] |};
    {| tool_name := "update_note";
       tool_description := "Update an existing note's content";
       tool_properties :=
         [prop "path" "string" "Path to the note";
          prop "content" "string" "New markdown content"];
       tool_required := ["path"; "content"] |};
    {| tool_name := "search_notes";
       tool_description := "Search notes by title";
       tool_properties :=
         [prop "query" "string" "Search query"; prop_limit "Max results" 20];
       tool_required := ["query"] |};
    {| tool_name := "full_text_search";
       tool_description := "Search within note content";
       tool_properties :=
         [prop "query" "string" "Search query"; prop_limit "Max results" 20];
       tool_required := ["query"] |};
    {| tool_name := "list_folders";
       tool_description := "List all folders in the vault";
       tool_properties := [];
       tool_required := [] |};
    {| tool_name := "get_tags";
       tool_description := "Get all tags used in the vault";
       tool_properties := [];
       tool_required := [] |};
    {| tool_name := "delete_note";
       tool_description := "Delete a note (moves to .trash)";
       tool_properties :=
         [prop "path" "string" "Path to the note to delete"];
       tool_required := ["path"] |};
    {| tool_name := "get_vault_info";
       tool_description := "Get vault statistics and info";
       tool_properties := [];
       tool_required := [] |} ]%string.

Definition is_some {A : Type} (o : option A) : bool :=
  match o with
  | Some _ => true
  | None => false
  end.

(** [key in arguments] *)
Definition present (a : arguments) (key : string) : bool :=
  if String.eqb key "folder" then is_some (arg_folder a)
  else if String.eqb key "limit" then is_some (arg_limit a)
  else if String.eqb key "path" then is_some (arg_path a)
  else if String.eqb key "content" then is_some (arg_content a)
  else if String.eqb key "query" then is_some (arg_query a)
  else false.

(** The first of the keys that the argument object lacks. *)
Fixpoint first_missing (a : arguments) (keys : list string) : option string :=
  match keys with
  | [] => None
  | k :: rest => if present a k then first_missing a rest else Some k
  end.

(** The tools that change the vault. *)
Definition writing_tools : list pystr :=
  map lit ["create_note"; "update_note"; "delete_note"]%string.

(** The vault [/v] beside a directory [/v2] that is not part of it. *)
Definition vault_with_sibling : store :=
  [ ([lit "v"], Dir 0);
    ([lit "v"; lit "a.md"], File (Text (lit "old")) 1);
    ([lit "v2"], Dir 0);
    ([lit "v2"; lit "secret.md"], File (Text (lit "theirs")) 3) ].



(** The capital sigma, the one letter that the host lowers by its
    position in the word (to the final form at the end of a word). *)
Definition capital_sigma : N := 931.

(** The same machine and vault as [host_v], at a later time. *)
Definition host_v_later : host :=
  {| VAULT_PATH := lit "/v"; cwd := []; now := 200 |}.

(** The two steps of [write_note] inside its [try]. *)
Definition write_note_step (h : host) (file_path : Path) (content : pystr)
  (st : store) : io unit :=
  match mkdir h (parent file_path) st with
  | (st1, inr e) => (st1, raise e)
  | (st1, inl _) =>
      match write_text h file_path content st1 with
      | (st2, inr e) => (st2, raise e)
      | (st2, inl _) => (st2, ret tt)
      end
  end.

(* ================================================================== *)
(** * Properties *)
(* ================================================================== *)

(** ** Text *)

Lemma str_eqb_refl (a : pystr) : str_eqb a a = true.
Proof.
  induction a as [|x a IH]; simpl; [reflexivity|].
  now rewrite N.eqb_refl.
Qed.

Lemma str_eqb_eq (a b : pystr) : str_eqb a b = true <-> a = b.
Proof.
  split; [|intros ->; apply str_eqb_refl].
  revert b; induction a as [|x a IH]; intros [|y b]; simpl; try discriminate; auto.
  intros H; apply andb_true_iff in H as [Hx Hab].
  apply N.eqb_eq in Hx; subst; f_equal; auto.
Qed.

Lemma str_eqb_neq (a b : pystr) : str_eqb a b = false <-> a <> b.
Proof.
  rewrite <- str_eqb_eq; destruct (str_eqb a b); split; congruence.
Qed.

Lemma loc_eqb_refl (a : location) : loc_eqb a a = true.
Proof.
  induction a as [|x a IH]; simpl; [reflexivity|].
  now rewrite str_eqb_refl.
Qed.

Lemma loc_eqb_eq (a b : location) : loc_eqb a b = true <-> a = b.
Proof.
  split; [|intros ->; apply loc_eqb_refl].
  revert b; induction a as [|x a IH]; intros [|y b]; simpl; try discriminate; auto.
  intros H; apply andb_true_iff in H as [Hx Hab].
  apply str_eqb_eq in Hx; subst; f_equal; auto.
Qed.

Lemma loc_eqb_neq (a b : location) : loc_eqb a b = false <-> a <> b.
Proof.
  rewrite <- loc_eqb_eq; destruct (loc_eqb a b); split; congruence.
Qed.

Lemma startswith_app (pre r : pystr) : startswith pre (pre ++ r) = true.
Proof.
  induction pre as [|x pre IH]; simpl; [reflexivity|].
  now rewrite N.eqb_refl.
Qed.

Lemma startswith_spec (pre s : pystr) :
  startswith pre s = true <-> exists r, s = pre ++ r.
Proof.
  split.
  - revert s; induction pre as [|x pre IH]; intros s H.
    + now exists s.
    + destruct s as [|y s]; simpl in H; [discriminate|].
      apply andb_true_iff in H as [Hx Hs].
      apply N.eqb_eq in Hx; subst y.
      destruct (IH _ Hs) as [r ->]; now exists r.
  - intros [r ->]; apply startswith_app.
Qed.

Lemma startswith_nil (s : pystr) : startswith [] s = true.
Proof. now destruct s. Qed.

Lemma startswith_contains (sub s : pystr) :
  startswith sub s = true -> contains sub s = true.
Proof. destruct s; simpl; intros ->; reflexivity. Qed.

Lemma contains_spec (sub s : pystr) :
  contains sub s = true <-> occurs sub s.
Proof.
  unfold occurs; split.
  - induction s as [|c s IH]; simpl; intros H.
    + rewrite orb_false_r in H.
      apply startswith_spec in H as [r Hr]; now exists [], r.
    + apply orb_true_iff in H as [H|H].
      * apply startswith_spec in H as [r Hr]; now exists [], r.
      * destruct (IH H) as (a & b & ->); now exists (c :: a), b.
  - intros (a & b & ->).
    induction a as [|c a IH]; simpl.
    + apply startswith_contains, startswith_app.
    + rewrite IH; apply orb_true_r.
Qed.

Lemma contains_nil (s : pystr) : contains [] s = true.
Proof. destruct s; reflexivity. Qed.

Lemma contains_app_r (sub s t : pystr) :
  contains sub s = true -> contains sub (s ++ t) = true.
Proof.
  rewrite !contains_spec; intros (a & b & ->).
  exists a, (b ++ t); now rewrite <- !app_assoc.
Qed.

Lemma contains_app_l (sub s t : pystr) :
  contains sub s = true -> contains sub (t ++ s) = true.
Proof.
  rewrite !contains_spec; intros (a & b & ->).
  exists (t ++ a), b; now rewrite <- !app_assoc.
Qed.

(** ** The hidden/system filter *)




(** ** The dispatcher *)

(** C8: a name that is none of the served names yields the error
    object that names it; no exception leaves the [try], and the store
    is as it was. *)
Theorem call_tool_unknown (U : unicode) (h : host) (st : store)
  (name : pystr) (a : arguments) :
  ~ In name tool_names ->
  dispatch U h st name a = (st, inl (Error (Msg (lit "Unknown tool: " ++ name)))) /\
  call_tool U h st name a = (st, Error (Msg (lit "Unknown tool: " ++ name))).
Proof.
  intros Hn.
  assert (F : forall s, In (lit s) tool_names -> tool s name = false).
  { intros s Hin. unfold tool. apply str_eqb_neq. intros ->. now apply Hn. }
  assert (D : dispatch U h st name a =
              (st, inl (Error (Msg (lit "Unknown tool: " ++ name))))).
  { unfold dispatch.
    rewrite !F by (unfold tool_names; simpl; auto 20).
    reflexivity. }
  split; [exact D|].
  unfold call_tool. now rewrite D.
Qed.

Lemma call_tool_unknown_witness :
  call_tool sample_unicode host_v vault_two_notes (lit "rename_note")
    {| arg_folder := None; arg_limit := None; arg_path := Some (lit "a.md");
       arg_content := None; arg_query := None |}
  = (vault_two_notes, Error (Msg (lit "Unknown tool: rename_note"))).
Proof.
  apply (call_tool_unknown sample_unicode host_v vault_two_notes
           (lit "rename_note")).
  unfold tool_names; simpl; intros H.
  repeat (destruct H as [H|H]; [discriminate H|]). exact H.
Defined.

(** ** The store *)

Lemma lookup_set_eq (k : location) (n : node) (st : store) :
  lookup k (set k n st) = Some n.
Proof.
  induction st as [|[k' n'] st IH]; simpl.
  - now rewrite loc_eqb_refl.
  - destruct (loc_eqb k k') eqn:E; simpl.
    + now rewrite loc_eqb_refl.
    + now rewrite E.
Qed.

Lemma lookup_set_neq (k k' : location) (n : node) (st : store) :
  k' <> k -> lookup k' (set k n st) = lookup k' st.
Proof.
  intros Hne. apply loc_eqb_neq in Hne.
  induction st as [|[k0 n0] st IH]; simpl.
  - now rewrite Hne.
  - destruct (loc_eqb k k0) eqn:E; simpl.
    + apply loc_eqb_eq in E; subst k0. now rewrite Hne.
    + now rewrite IH.
Qed.

Lemma node_at_set_eq (k : location) (n : node) (st : store) :
  k <> [] -> node_at (set k n st) k = Some n.
Proof.
  destruct k; [congruence|]. intros _. unfold node_at. apply lookup_set_eq.
Qed.

Lemma node_at_set_neq (k k' : location) (n : node) (st : store) :
  k' <> k -> node_at (set k n st) k' = node_at st k'.
Proof.
  intros Hne. destruct k'; [reflexivity|].
  unfold node_at. now apply lookup_set_neq.
Qed.

(** Writing a file where no directory was leaves every path that
    resolved resolving to the same place. *)
Lemma walk_set_file (st : store) (k : location) (d : filedata) (m : Z) :
  ~ is_directory (node_at st k) ->
  forall comps cur k',
    walk st cur comps = inl k' ->
    walk (set k (File d m) st) cur comps = inl k'.
Proof.
  intros Hk. induction comps as [|c rest IH]; intros cur k' Hw; simpl in *.
  - exact Hw.
  - destruct (node_at st cur) as [[d0 m0|m0]|] eqn:Hc; try discriminate.
    assert (Hne : cur <> k).
    { intros ->. apply Hk. now exists m0. }
    rewrite (node_at_set_neq k cur _ st Hne), Hc. now apply IH.
Qed.

Lemma write_text_ok (h : host) (p : Path) (content : pystr) (st st' : store) :
  write_text h p content st = (st', inl tt) ->
  exists k,
    locate h st p = inl k /\
    ~ is_directory (node_at st k) /\
    st' = set k (File (Text content) (now h)) st.
Proof.
  unfold write_text. destruct (locate h st p) as [k|e] eqn:Hl; [|discriminate].
  intros H. exists k. split; [reflexivity|].
  destruct (node_at st k) as [[d m|m]|] eqn:Hn; try discriminate.
  - destruct (encodable content); inversion H; subst.
    split; [|reflexivity]. intros [m' Hm]; discriminate.
  - destruct (creatable p); [|discriminate].
    destruct (encodable content); inversion H; subst.
    split; [|reflexivity]. intros [m' Hm]; discriminate.
Qed.

Lemma entry_at_written (h : host) (p : Path) (content : pystr) (st st' : store) :
  write_text h p content st = (st', inl tt) ->
  exists k, entry_at h st' p = inl (k, File (Text content) (now h)).
Proof.
  intros H. destruct (write_text_ok _ _ _ _ _ H) as (k & Hl & Hd & ->).
  exists k. unfold entry_at, locate in *.
  rewrite (walk_set_file st k _ _ Hd _ _ _ Hl). simpl.
  rewrite node_at_set_eq; [reflexivity|].
  intros ->. apply Hd. now exists 0%Z.
Qed.

Lemma universal_newlines_id (s : pystr) :
  ~ In 13%N s -> universal_newlines s = s.
Proof.
  induction s as [|c s IH]; intros Hn; [reflexivity|].
  simpl. destruct (N.eqb c 13) eqn:E.
  - apply N.eqb_eq in E. exfalso. apply Hn. now left.
  - f_equal. apply IH. intros Hin. apply Hn. now right.
Qed.

Lemma endswith_md_path (path : pystr) : endswith md_suffix (md_path path) = true.
Proof.
  unfold md_path. destruct (endswith md_suffix path) eqn:E; simpl; [exact E|].
  unfold endswith. rewrite rev_app_distr. apply startswith_app.
Qed.

(** ** The note store *)

Lemma write_note_eq (h : host) (st : store) (path content : pystr) :
  write_note h st path content =
  let file_path := div (get_vault_path h) (md_path path) in
  if inside_vault h file_path then
    match mkdir h (parent file_path) st with
    | (st1, inr e) => (st1, Error (ExcStr e))
    | (st1, inl _) =>
        match write_text h file_path content st1 with
        | (st2, inr e) => (st2, Error (ExcStr e))
        | (st2, inl _) =>
            (st2, Saved (md_path path) (lit "Note saved: " ++ md_path path))
        end
    end
  else (st, access_denied).
Proof.
  unfold write_note, md_path.
  destruct (inside_vault h _); reflexivity.
Qed.

(** C5, as the code has it: when [write_note] reports success, reading
    the path it reports (the given path, with the Markdown extension
    when it lacked it) returns the written text with the host's
    newline translation of text mode, which is the text itself when it
    has no carriage return. *)
Theorem write_then_read (h : host) (st st' : store)
  (path content path' msg : pystr) :
  write_note h st path content = (st', Saved path' msg) ->
  path' = md_path path /\
  read_note h st' path' =
    Note (stem (div (get_vault_path h) path')) path'
         (universal_newlines content) (now h) (utf8_size content) /\
  (~ In 13%N content -> universal_newlines content = content).
Proof.
  intros H. rewrite write_note_eq in H.
  cbv zeta in H.
  destruct (inside_vault h (div (get_vault_path h) (md_path path))) eqn:Hin;
    [|discriminate].
  destruct (mkdir h (parent (div (get_vault_path h) (md_path path))) st)
    as [st1 [[]|e]]; [|discriminate].
  destruct (write_text h (div (get_vault_path h) (md_path path)) content st1)
    as [st2 [[]|e]] eqn:W; [|discriminate].
  inversion H; subst; clear H.
  split; [reflexivity|]. split; [|apply universal_newlines_id].
  destruct (entry_at_written _ _ _ _ _ W) as [k Hk].
  unfold read_note, exists_, read_text, stat. rewrite Hk, Hin. reflexivity.
Qed.

Lemma write_then_read_witness :
  read_note host_v
    (fst (write_note host_v vault_two_notes (lit "sub/note") (lit "hi")))
    (lit "sub/note.md")
  = Note (lit "note") (lit "sub/note.md") (lit "hi") 100 2.
Proof.
  destruct (write_then_read host_v vault_two_notes
              (fst (write_note host_v vault_two_notes (lit "sub/note") (lit "hi")))
              (lit "sub/note") (lit "hi") (lit "sub/note.md")
              (lit "Note saved: sub/note.md") eq_refl) as (_ & R & _).
  exact R.
Defined.

(** C5, as stated, fails: [write_note] writes [note.md], so a read of
    the path that was given finds nothing; and a carriage return comes
    back as a line feed. *)
Lemma write_then_read_differs :
  (snd (write_note host_v vault_two_notes (lit "note") (lit "hi"))
     = Saved (lit "note.md") (lit "Note saved: note.md") /\
   read_note host_v
     (fst (write_note host_v vault_two_notes (lit "note") (lit "hi")))
     (lit "note") = not_found (lit "note")) /\
  (snd (write_note host_v vault_two_notes (lit "c.md") [120; 13; 121]%N)
     = Saved (lit "c.md") (lit "Note saved: c.md") /\
   read_note host_v
     (fst (write_note host_v vault_two_notes (lit "c.md") [120; 13; 121]%N))
     (lit "c.md") = Note (lit "c") (lit "c.md") [120; 10; 121]%N 100 3).
Proof. repeat split; reflexivity. Qed.

(** The order of the guards: when the resolved path does not begin with
    the resolved vault path, [write_note] (which resolves the path with
    its Markdown extension) answers access denied; [read_note] and
    [delete_note] look for the file first, so they answer access denied
    for a file that exists and not found for one that does not; in
    every case the store is left as it was. *)
Theorem outside_vault_refused (h : host) (st : store) (path content : pystr) :
  (inside_vault h (div (get_vault_path h) path) = false ->
     read_note h st path =
       (if exists_ h st (div (get_vault_path h) path)
        then access_denied else not_found path) /\
     delete_note h st path =
       (st, if exists_ h st (div (get_vault_path h) path)
            then access_denied else not_found path)) /\
  (inside_vault h (div (get_vault_path h) (md_path path)) = false ->
     write_note h st path content = (st, access_denied)).
Proof.
  split.
  - intros Hout. unfold read_note, delete_note.
    destruct (exists_ h st (div (get_vault_path h) path)); simpl;
      [rewrite Hout|]; split; reflexivity.
  - intros Hout. rewrite write_note_eq. cbv zeta. now rewrite Hout.
Qed.

Lemma outside_vault_refused_witness :
  read_note host_v vault_two_notes (lit "../etc/passwd") =
    not_found (lit "../etc/passwd") /\
  delete_note host_v vault_two_notes (lit "../etc/passwd") =
    (vault_two_notes, not_found (lit "../etc/passwd")) /\
  write_note host_v vault_two_notes (lit "../etc/passwd") (lit "x") =
    (vault_two_notes, access_denied).
Proof.
  destruct (outside_vault_refused host_v vault_two_notes
              (lit "../etc/passwd") (lit "x")) as [RD W].
  destruct (RD eq_refl) as [R D].
  exact (conj R (conj D (W eq_refl))).
Defined.

(** An outside path that names nothing: [../x.md] resolves to [/x.md], outside the
    vault [/v], and [read_note] and [delete_note] answer not found, not
    access denied (nothing is there). *)
Lemma outside_vault_not_found :
  path_str (resolve host_v (div (get_vault_path host_v) (lit "../x.md")))
    = lit "/x.md" /\
  read_note host_v vault_two_notes (lit "../x.md") = not_found (lit "../x.md") /\
  delete_note host_v vault_two_notes (lit "../x.md")
    = (vault_two_notes, not_found (lit "../x.md")) /\
  not_found (lit "../x.md") <> access_denied.
Proof. repeat split; try reflexivity. discriminate. Qed.

(** C1 on the code: the containment test compares the two resolved
    paths as strings, so the directory [/v2] beside the vault [/v]
    passes it.  The path [../v2/secret.md] resolves to
    [/v2/secret.md], outside the vault, and no operation answers
    access denied: [read_note] returns the file's content,
    [write_note] overwrites the file, and [delete_note] takes it out
    of [/v2] (and makes directories on the way). *)
Theorem sibling_directory_admitted :
  path_str (resolve host_v (div (get_vault_path host_v) (lit "../v2/secret.md")))
    = lit "/v2/secret.md" /\
  path_str (resolve host_v (get_vault_path host_v)) = lit "/v" /\
  read_note host_v vault_with_sibling (lit "../v2/secret.md")
    = Note (lit "secret") (lit "../v2/secret.md") (lit "theirs") 3 6 /\
  (snd (write_note host_v vault_with_sibling (lit "../v2/secret.md") (lit "mine"))
     = Saved (lit "../v2/secret.md") (lit "Note saved: ../v2/secret.md") /\
   lookup [lit "v2"; lit "secret.md"]
     (fst (write_note host_v vault_with_sibling (lit "../v2/secret.md")
             (lit "mine")))
     = Some (File (Text (lit "mine")) 100)) /\
  (snd (delete_note host_v vault_with_sibling (lit "../v2/secret.md"))
     = Trashed (lit "Moved to trash: ../v2/secret.md") /\
   lookup [lit "v2"; lit "secret.md"]
     (fst (delete_note host_v vault_with_sibling (lit "../v2/secret.md")))
     = None /\
   lookup [lit "v"; lit "v2"; lit "secret.md"]
     (fst (delete_note host_v vault_with_sibling (lit "../v2/secret.md")))
     = Some (File (Text (lit "theirs")) 3)).
Proof. repeat split; reflexivity. Qed.

(** ** A hidden vault root *)

Lemma join_app_prefix (sep : pystr) (a b : list pystr) :
  exists t, join sep (a ++ b) = join sep a ++ t.
Proof.
  induction a as [|x a IH]; simpl.
  - now exists (join sep b).
  - destruct a as [|y a]; simpl in *.
    + destruct b; [exists []; now rewrite app_nil_r|].
      now exists (sep ++ join sep (p :: b)).
    + destruct IH as [t Ht]. exists t. rewrite Ht.
      now rewrite <- !app_assoc.
Qed.

Lemma path_str_joinpath (p q : Path) :
  is_absolute q = false ->
  is_absolute p = true \/ segments p <> [] ->
  exists t, path_str (joinpath p q) = path_str p ++ t.
Proof.
  intros Hq Hp. unfold joinpath, path_str. rewrite Hq. simpl.
  destruct (join_app_prefix slash (segments p) (segments q)) as [t Ht].
  destruct (is_absolute p).
  - exists t. rewrite Ht. reflexivity.
  - destruct Hp as [Hp|Hp]; [discriminate|].
    destruct (segments p) as [|x sp] eqn:E; [congruence|].
    simpl app at 1. cbv iota. now exists t.
Qed.

(** A path below a hidden path is hidden. *)
Lemma hidden_joinpath (p q : Path) :
  is_absolute q = false ->
  is_hidden_or_system p = true ->
  is_hidden_or_system (joinpath p q) = true.
Proof.
  intros Hq Hh.
  assert (Hparts : parts (joinpath p q) = parts p ++ segments q).
  { unfold joinpath, parts. rewrite Hq. simpl. now rewrite app_assoc. }
  destruct (is_absolute p) eqn:Ha; [|destruct (segments p) as [|x sp] eqn:Es].
  - destruct (path_str_joinpath p q Hq (or_introl Ha)) as [t Ht].
    unfold is_hidden_or_system in *. rewrite Ht, Hparts, existsb_app.
    apply orb_true_iff in Hh as [Hh|Hh]; [apply orb_true_iff in Hh as [Hh|Hh]|].
    + now rewrite (contains_app_r _ _ t Hh).
    + rewrite (contains_app_r _ _ t Hh). now rewrite orb_true_r.
    + rewrite Hh. now rewrite !orb_true_r.
  - exfalso. unfold is_hidden_or_system, path_str, parts in Hh.
    rewrite Ha, Es in Hh. discriminate Hh.
  - assert (Hne : is_absolute p = true \/ segments p <> []) by (right; congruence).
    destruct (path_str_joinpath p q Hq Hne) as [t Ht].
    unfold is_hidden_or_system in *. rewrite Ht, Hparts, existsb_app.
    apply orb_true_iff in Hh as [Hh|Hh]; [apply orb_true_iff in Hh as [Hh|Hh]|].
    + now rewrite (contains_app_r _ _ t Hh).
    + rewrite (contains_app_r _ _ t Hh). now rewrite orb_true_r.
    + rewrite Hh. now rewrite !orb_true_r.
Qed.

Lemma strip_prefix_app (base p rest : list pystr) :
  strip_prefix base p = Some rest -> p = base ++ rest.
Proof.
  revert p; induction base as [|b base IH]; intros p H; simpl in *.
  - congruence.
  - destruct p as [|x p]; [discriminate|].
    destruct (str_eqb b x) eqn:E; [|discriminate].
    apply str_eqb_eq in E; subst x. f_equal. now apply IH.
Qed.

Lemma relative_to_joinpath (p base rel : Path) :
  relative_to p base = Some rel ->
  is_absolute rel = false /\ p = joinpath base rel.
Proof.
  unfold relative_to.
  destruct (Bool.eqb (is_absolute p) (is_absolute base)) eqn:Ea; [|discriminate].
  destruct (strip_prefix (segments base) (segments p)) as [rest|] eqn:Es;
    [|discriminate].
  intros H; inversion H; subst rel; clear H. split; [reflexivity|].
  apply eqb_prop in Ea. apply strip_prefix_app in Es.
  unfold joinpath; simpl. destruct p as [a s]; simpl in *. now subst.
Qed.

Lemma hidden_relative_to (p base rel : Path) :
  is_hidden_or_system base = true ->
  relative_to p base = Some rel ->
  is_hidden_or_system p = true.
Proof.
  intros Hh Hr. apply relative_to_joinpath in Hr as [Hrel ->].
  now apply hidden_joinpath.
Qed.

Lemma rglob_joinpath (md_only : bool) (h : host) (st : store) (p x : Path) :
  In x (rglob md_only h st p) ->
  exists rel, is_absolute rel = false /\ x = joinpath p rel.
Proof.
  unfold rglob. destruct (entry_at h st p) as [[k [d m|m]]|e]; simpl; try tauto.
  rewrite in_flat_map. intros ([k' n] & _ & Hx). simpl in Hx.
  destruct (strip_prefix k k') as [[|c rest]|]; simpl in Hx; try tauto.
  match type of Hx with
  | In _ (if ?b then _ else _) => destruct b; simpl in Hx; [|tauto]
  end.
  destruct Hx as [<-|[]]. eexists; split; [|reflexivity]. reflexivity.
Qed.

Lemma rglob_hidden (md_only : bool) (h : host) (st : store) (p x : Path) :
  is_hidden_or_system p = true ->
  In x (rglob md_only h st p) ->
  is_hidden_or_system x = true.
Proof.
  intros Hh Hin. apply rglob_joinpath in Hin as (rel & Hrel & ->).
  now apply hidden_joinpath.
Qed.

(** ** The scanning loops *)

Lemma list_loop_capped (h : host) (st : store) (vault : Path) (limit : Z)
  (scan : list Path) (files : list entry) :
  list_loop h st vault limit scan files =
  capped limit (map (list_step h st vault) scan) files.
Proof.
  revert files; induction scan as [|f scan IH]; intros files; simpl;
    [reflexivity|].
  unfold list_step at 1.
  destruct (is_hidden_or_system f); [apply IH|].
  destruct (list_entry h st vault f) as [e|x]; [|apply IH].
  destruct (Z.of_nat (length (files ++ [e])) >=? limit)%Z; [reflexivity|apply IH].
Qed.

Lemma title_loop_capped (U : unicode) (h : host) (st : store) (vault : Path)
  (q : pystr) (limit : Z) (scan : list Path) (results : list entry) :
  title_loop U h st vault q limit scan results =
  capped limit (map (title_step U h st vault q) scan) results.
Proof.
  revert results; induction scan as [|f scan IH]; intros results; simpl;
    [reflexivity|].
  unfold title_step at 1.
  destruct (is_hidden_or_system f); [apply IH|].
  destruct (contains q (lower U (stem f))); [|apply IH].
  destruct (title_entry h st vault f) as [e|x]; [|apply IH].
  destruct (Z.of_nat (length (results ++ [e])) >=? limit)%Z;
    [reflexivity|apply IH].
Qed.

Lemma text_loop_capped (U : unicode) (h : host) (st : store) (vault : Path)
  (q : pystr) (limit : Z) (scan : list Path) (results : list entry) :
  text_loop U h st vault q limit scan results =
  capped limit (map (text_step U h st vault q) scan) results.
Proof.
  revert results; induction scan as [|f scan IH]; intros results; simpl;
    [reflexivity|].
  unfold text_step at 1.
  destruct (is_hidden_or_system f); [apply IH|].
  destruct (text_entry U h st vault f q) as [[e|]|x]; try apply IH.
  destruct (Z.of_nat (length (results ++ [e])) >=? limit)%Z;
    [reflexivity|apply IH].
Qed.

(** The loop returns the first [limit] dictionaries found, and one
    dictionary when [limit] is below one: the bound is looked at only
    after a dictionary has been appended. *)
Lemma capped_firstn (limit : Z) (found : list (option entry))
  (results : list entry) :
  capped limit found results =
  results ++
  firstn (Z.to_nat (Z.max 1 (limit - Z.of_nat (length results)))) (somes found).
Proof.
  revert results; induction found as [|[e|] found IH]; intros results; simpl.
  - now rewrite firstn_nil, app_nil_r.
  - destruct (Z.of_nat (length (results ++ [e])) >=? limit)%Z eqn:E.
    + rewrite Z.geb_leb in E. apply Z.leb_le in E.
      rewrite length_app in E. simpl in E.
      replace (Z.to_nat (Z.max 1 (limit - Z.of_nat (length results))))
        with 1%nat by lia.
      reflexivity.
    + rewrite Z.geb_leb in E. apply Z.leb_gt in E.
      rewrite IH. rewrite length_app in *. simpl in *.
      replace (Z.to_nat (Z.max 1 (limit - Z.of_nat (length results))))
        with (S (Z.to_nat (Z.max 1 (limit - Z.of_nat (length results + 1)))))
        by lia.
      simpl. now rewrite <- app_assoc.
  - apply IH.
Qed.

Lemma capped_none (limit : Z) (found : list (option entry))
  (results : list entry) :
  (forall o, In o found -> o = None) ->
  capped limit found results = results.
Proof.
  revert results; induction found as [|o found IH]; intros results Hall;
    [reflexivity|].
  rewrite (Hall o (or_introl eq_refl)). simpl. apply IH.
  intros o' Hin. apply Hall. now right.
Qed.

Section HiddenVault.

Variables (U : unicode) (h : host) (st : store).
Hypothesis vault_hidden : is_hidden_or_system (get_vault_path h) = true.

Lemma list_step_hidden_vault (f : Path) : list_step h st (get_vault_path h) f = None.
Proof.
  unfold list_step. destruct (is_hidden_or_system f) eqn:Hf; [reflexivity|].
  unfold list_entry. destruct (stat h st f) as [s|x]; simpl; [|reflexivity].
  destruct (relative_to f (get_vault_path h)) as [rel|] eqn:R; [|reflexivity].
  apply (hidden_relative_to _ _ _ vault_hidden) in R. congruence.
Qed.

Lemma title_step_hidden_vault (q : pystr) (f : Path) :
  title_step U h st (get_vault_path h) q f = None.
Proof.
  unfold title_step. destruct (is_hidden_or_system f) eqn:Hf; [reflexivity|].
  destruct (contains q (lower U (stem f))); [|reflexivity].
  unfold title_entry. destruct (stat h st f) as [s|x]; simpl; [|reflexivity].
  destruct (relative_to f (get_vault_path h)) as [rel|] eqn:R; [|reflexivity].
  apply (hidden_relative_to _ _ _ vault_hidden) in R. congruence.
Qed.

Lemma text_step_hidden_vault (q : pystr) (f : Path) :
  text_step U h st (get_vault_path h) q f = None.
Proof.
  unfold text_step. destruct (is_hidden_or_system f) eqn:Hf; [reflexivity|].
  unfold text_entry. destruct (read_text h st f) as [c|x]; simpl; [|reflexivity].
  destruct (contains (lower U q) (lower U c)); [|reflexivity].
  destruct (stat h st f) as [s|x]; simpl; [|reflexivity].
  destruct (relative_to f (get_vault_path h)) as [rel|] eqn:R; [|reflexivity].
  apply (hidden_relative_to _ _ _ vault_hidden) in R. congruence.
Qed.

Lemma tags_loop_hidden (scan : list Path) (tags : list (pystr * list pystr)) :
  (forall f, In f scan -> is_hidden_or_system f = true) ->
  tags_loop U h st scan tags = tags.
Proof.
  revert tags; induction scan as [|f scan IH]; intros tags Hall;
    [reflexivity|].
  simpl. rewrite (Hall f (or_introl eq_refl)). apply IH.
  intros g Hg. apply Hall. now right.
Qed.

Lemma folders_loop_hidden (scan : list Path) :
  (forall f, In f scan -> is_hidden_or_system f = true) ->
  folders_loop h st (get_vault_path h) scan = ret [].
Proof.
  induction scan as [|f scan IH]; intros Hall; [reflexivity|].
  simpl. rewrite (Hall f (or_introl eq_refl)), andb_false_r. apply IH.
  intros g Hg. apply Hall. now right.
Qed.

Lemma filter_hidden (keep : Path -> bool) (scan : list Path) :
  (forall f, In f scan -> is_hidden_or_system f = true) ->
  filter (fun f => keep f && negb (is_hidden_or_system f)) scan = [].
Proof.
  induction scan as [|f scan IH]; intros Hall; [reflexivity|].
  simpl. rewrite (Hall f (or_introl eq_refl)), andb_false_r. apply IH.
  intros g Hg. apply Hall. now right.
Qed.

End HiddenVault.

(** C10: the filter sees each scanned entry's whole path, the vault
    root's segments included.  When a part of the vault root's path
    starts with a dot, or the path's string contains the metadata
    folder's name or the trash folder's name, every scanned entry is
    classified hidden; the listing (for any folder), both searches, the
    tags and the folder list are empty and the statistics count
    nothing. *)
Theorem hidden_vault_root_empty (U : unicode) (h : host) (st : store) :
  existsb (startswith dot) (parts (get_vault_path h)) = true \/
  contains obsidian_dir (path_str (get_vault_path h)) = true \/
  contains trash_dir (path_str (get_vault_path h)) = true ->
  (forall md_only f,
     In f (rglob md_only h st (get_vault_path h)) ->
     is_hidden_or_system f = true) /\
  (forall folder limit, list_markdown_files h st folder limit = []) /\
  (forall query limit, search_by_title U h st query limit = []) /\
  (forall query limit, full_text_search U h st query limit = []) /\
  get_tags U h st = [] /\
  list_folders h st = ret [] /\
  (exists_ h st (get_vault_path h) = true ->
   get_vault_info h st = Info (path_str (get_vault_path h)) 0 0).
Proof.
  intros Hroot.
  assert (Hv : is_hidden_or_system (get_vault_path h) = true).
  { unfold is_hidden_or_system. destruct Hroot as [H|[H|H]]; rewrite H;
      now rewrite ?orb_true_r. }
  assert (Hscan : forall md_only f,
            In f (rglob md_only h st (get_vault_path h)) ->
            is_hidden_or_system f = true).
  { intros b f. now apply rglob_hidden. }
  split; [exact Hscan|]. repeat split.
  - intros folder limit. unfold list_markdown_files.
    destruct (negb (exists_ h st _)); [reflexivity|].
    rewrite list_loop_capped, capped_none; [reflexivity|].
    intros o Ho. apply in_map_iff in Ho as (f & <- & _).
    now apply list_step_hidden_vault.
  - intros q limit. unfold search_by_title.
    rewrite title_loop_capped, capped_none; [reflexivity|].
    intros o Ho. apply in_map_iff in Ho as (f & <- & _).
    now apply title_step_hidden_vault.
  - intros q limit. unfold full_text_search.
    rewrite text_loop_capped, capped_none; [reflexivity|].
    intros o Ho. apply in_map_iff in Ho as (f & <- & _).
    now apply text_step_hidden_vault.
  - unfold get_tags. apply tags_loop_hidden, Hscan.
  - unfold list_folders. rewrite folders_loop_hidden; [reflexivity|apply Hscan].
  - intros Hex. unfold get_vault_info. rewrite Hex. simpl.
    rewrite (filter_hidden (is_dir h st) _ (Hscan false)).
    assert (N : filter (fun f => negb (is_hidden_or_system f))
                       (rglob true h st (get_vault_path h)) = [])
      by exact (filter_hidden (fun _ => true) _ (Hscan true)).
    rewrite N. reflexivity.
Qed.

Lemma hidden_vault_root_empty_witness :
  list_markdown_files host_dotted vault_dotted None 50 = [] /\
  get_tags sample_unicode host_dotted vault_dotted = [] /\
  get_vault_info host_dotted vault_dotted =
    Info (lit "/home/u/.notes/vault") 0 0.
Proof.
  destruct (hidden_vault_root_empty sample_unicode host_dotted vault_dotted
              (or_introl eq_refl)) as (_ & L & _ & _ & T & _ & I).
  exact (conj (L None 50%Z) (conj T (I eq_refl))).
Defined.

(** ** The listing *)

Lemma insert_desc_perm (x : entry) (l : list entry) :
  Permutation (x :: l) (insert_desc x l).
Proof.
  induction l as [|y l IH]; simpl; [reflexivity|].
  destruct (e_modified x <? e_modified y)%Z; [|reflexivity].
  rewrite perm_swap. now constructor.
Qed.

Lemma sorted_desc_perm (l : list entry) : Permutation l (sorted_desc l).
Proof.
  induction l as [|x l IH]; simpl; [reflexivity|].
  rewrite <- insert_desc_perm. now constructor.
Qed.

Lemma sorted_desc_length (l : list entry) : length (sorted_desc l) = length l.
Proof. symmetry. apply Permutation_length, sorted_desc_perm. Qed.

Lemma insert_desc_sorted (x : entry) (l : list entry) :
  newest_first l -> newest_first (insert_desc x l).
Proof.
  unfold newest_first. induction l as [|y l IH]; intros Hs; simpl.
  - repeat constructor.
  - inversion Hs as [|? ? Hl Hy]; subst.
    destruct (e_modified x <? e_modified y)%Z eqn:E.
    + apply Z.ltb_lt in E. constructor; [now apply IH|].
      rewrite Forall_forall in *. intros z Hz.
      apply (Permutation_in _ (Permutation_sym (insert_desc_perm x l))) in Hz.
      destruct Hz as [<-|Hz]; [lia|now apply Hy].
    + apply Z.ltb_ge in E. constructor; [exact Hs|].
      constructor; [exact E|].
      rewrite Forall_forall in *. intros z Hz. specialize (Hy z Hz). lia.
Qed.

(** The result of the listing is ordered newest first. *)
Lemma sorted_desc_sorted (l : list entry) : newest_first (sorted_desc l).
Proof.
  induction l as [|x l IH]; simpl; [constructor|].
  now apply insert_desc_sorted.
Qed.

Lemma collect_all_somes (h : host) (st : store) (vault : Path)
  (scan : list Path) :
  collect_all h st vault scan = somes (map (list_step h st vault) scan).
Proof.
  induction scan as [|f scan IH]; simpl; [reflexivity|].
  unfold list_step at 1.
  destruct (is_hidden_or_system f); [exact IH|].
  destruct (list_entry h st vault f); simpl; [now rewrite IH|exact IH].
Qed.

Lemma rglob_absent (md_only : bool) (h : host) (st : store) (p : Path) :
  exists_ h st p = false -> rglob md_only h st p = [].
Proof.
  unfold exists_, rglob. now destruct (entry_at h st p) as [[k n]|e].
Qed.

(** What the listing returns: the first [limit] matches that the scan
    meets (one when [limit] is below one), and these sorted. *)
Lemma list_markdown_files_cut_then_sorted (h : host) (st : store)
  (folder : option pystr) (limit : Z) :
  list_markdown_files h st folder limit =
  sorted_desc
    (firstn (Z.to_nat (Z.max 1 limit))
       (collect_all h st (get_vault_path h)
          (rglob true h st (search_path h folder)))).
Proof.
  unfold list_markdown_files. fold (search_path h folder).
  destruct (exists_ h st (search_path h folder)) eqn:E; simpl.
  - rewrite list_loop_capped, capped_firstn, collect_all_somes. simpl.
    now rewrite Z.sub_0_r.
  - rewrite (rglob_absent _ _ _ _ E). simpl. now rewrite firstn_nil.
Qed.

(** When the bound is above the number of matches, the listing is the
    specification's: all the matches, newest first. *)
Lemma list_markdown_files_unbounded (h : host) (st : store) (limit : Z) :
  (Z.of_nat (length (collect_all h st (get_vault_path h)
                       (rglob true h st (get_vault_path h)))) <= limit)%Z ->
  list_markdown_files h st None limit = spec_list_notes h st limit.
Proof.
  intros Hl. rewrite list_markdown_files_cut_then_sorted.
  unfold spec_list_notes, search_path.
  rewrite !firstn_all2; [reflexivity| |]; rewrite ?sorted_desc_length; lia.
Qed.

(** C2 on the code: with two notes and [limit = 1], the listing is the
    note that the scan meets first, the older one; collecting all,
    sorting and then truncating gives the newer one. *)
Theorem list_markdown_files_cut_before_sort :
  list_markdown_files host_v vault_two_notes None 1 = [entry_a] /\
  spec_list_notes host_v vault_two_notes 1 = [entry_b] /\
  (e_modified entry_a < e_modified entry_b)%Z.
Proof. repeat split; reflexivity. Qed.

(** ** The searches with the empty query *)

Lemma find_nil (s : pystr) : find [] s = 0%Z.
Proof. unfold find. destruct s; reflexivity. Qed.

Lemma firstn_firstn_min (n : nat) (s : pystr) :
  firstn (Nat.min (length s) n) s = firstn n s.
Proof.
  destruct (Nat.le_ge_cases n (length s)) as [H|H].
  - now rewrite Nat.min_r.
  - rewrite Nat.min_l by exact H. now rewrite !firstn_all2 by lia.
Qed.

Lemma snippet_of_empty_query (U : unicode) (content : pystr) :
  snippet_of U [] content = replace_newlines (firstn 50 content).
Proof.
  unfold snippet_of, lower, slice, len. simpl flat_map. rewrite find_nil.
  simpl. rewrite Z.sub_0_r.
  replace (Z.to_nat (Z.min (Z.of_nat (length content)) 50))
    with (Nat.min (length content) 50) by lia.
  now rewrite firstn_firstn_min.
Qed.

Lemma title_step_empty_query (U : unicode) (h : host) (st : store)
  (vault f : Path) :
  title_step U h st vault (lower U []) f = every_title h st vault f.
Proof.
  unfold title_step, every_title, lower. simpl flat_map.
  now rewrite contains_nil.
Qed.

Lemma text_step_empty_query (U : unicode) (h : host) (st : store)
  (vault f : Path) :
  text_step U h st vault [] f = every_text h st vault f.
Proof.
  unfold text_step, every_text, text_entry.
  destruct (is_hidden_or_system f); [reflexivity|].
  destruct (read_text h st f) as [content|x]; simpl; [|reflexivity].
  unfold lower at 1. simpl flat_map. rewrite contains_nil.
  destruct (stat h st f) as [s|x]; simpl; [|reflexivity].
  destruct (relative_to f vault) as [rel|]; [|reflexivity].
  now rewrite snippet_of_empty_query.
Qed.

(** With the empty query and a bound of at least one, each search
    returns the first [limit] of: every scanned Markdown entry that is
    not hidden (title search); every one that is not hidden and can be
    read, with the snippet taken from offset 0 (full-text search). *)
Lemma empty_query_matches_all (U : unicode) (h : host) (st : store)
  (limit : Z) :
  (1 <= limit)%Z ->
  search_by_title U h st [] limit =
    firstn (Z.to_nat limit)
      (somes (map (every_title h st (get_vault_path h))
                  (rglob true h st (get_vault_path h)))) /\
  full_text_search U h st [] limit =
    firstn (Z.to_nat limit)
      (somes (map (every_text h st (get_vault_path h))
                  (rglob true h st (get_vault_path h)))).
Proof.
  intros Hl. unfold search_by_title, full_text_search.
  rewrite title_loop_capped, text_loop_capped, !capped_firstn. simpl.
  rewrite Z.sub_0_r, Z.max_r by lia.
  split; do 2 f_equal; apply map_ext; intros f.
  - apply title_step_empty_query.
  - apply text_step_empty_query.
Qed.

(** C9 on the code: with the empty query and [limit = 0] each search
    returns one note, the first that the scan meets, not none: the
    bound is tested after the match has been appended.  The snippet is
    the content from offset 0. *)
Theorem empty_query_limit_zero (U : unicode) :
  search_by_title U host_v vault_two_notes [] 0 =
    [{| e_name := lit "a"; e_path := lit "a.md"; e_modified := 1;
        e_size := None; e_snippet := None |}] /\
  full_text_search U host_v vault_two_notes [] 0 =
    [{| e_name := lit "a"; e_path := lit "a.md"; e_modified := 1;
        e_size := None; e_snippet := Some (lit "...old...") |}].
Proof.
  unfold search_by_title, full_text_search.
  rewrite title_loop_capped, text_loop_capped, !capped_firstn.
  rewrite (map_ext _ _ (title_step_empty_query U host_v vault_two_notes
                          (get_vault_path host_v))).
  rewrite (map_ext _ _ (text_step_empty_query U host_v vault_two_notes
                          (get_vault_path host_v))).
  split; reflexivity.
Qed.

(** ** The snippet of the full-text search *)

Lemma lower_app (U : unicode) (a b : pystr) :
  lower U (a ++ b) = lower U a ++ lower U b.
Proof. apply flat_map_app. Qed.

(** [find] returns the first position at which the text starts with
    the sought one. *)
Lemma find_from_first (sub a rest : pystr) (i : Z) :
  startswith sub rest = true ->
  (forall j, (j < length a)%nat -> startswith sub (skipn j (a ++ rest)) = false) ->
  find_from i sub (a ++ rest) = (i + Z.of_nat (length a))%Z.
Proof.
  intros Hm. revert i. induction a as [|c a IH]; intros i Hno; simpl.
  - destruct rest; simpl in *; rewrite Hm; lia.
  - assert (H0 := Hno 0%nat ltac:(simpl; lia)). simpl in H0. rewrite H0.
    rewrite IH; [lia|].
    intros j Hj. apply (Hno (S j)). simpl. lia.
Qed.

Lemma slice_window (a m b : pystr) (n : nat) :
  slice (Z.max 0 (Z.of_nat (length a) - Z.of_nat n))
        (Z.min (len (a ++ m ++ b))
               (Z.of_nat (length a) + len m + Z.of_nat n))
        (a ++ m ++ b)
  = skipn (length a - n) a ++ m ++ firstn n b.
Proof.
  unfold slice, len. rewrite !length_app.
  replace (Z.to_nat (Z.max 0 (Z.of_nat (length a) - Z.of_nat n)))
    with (length a - n)%nat by lia.
  rewrite skipn_app.
  replace (length a - n - length a)%nat with 0%nat by lia. simpl skipn.
  set (k := Z.to_nat _).
  assert (Hk : k = (length (skipn (length a - n) a) + (length m + Nat.min (length b) n))%nat).
  { unfold k. rewrite length_skipn. lia. }
  rewrite Hk, firstn_app_2, firstn_app_2. do 2 f_equal.
  rewrite Nat.min_comm. destruct (Nat.le_ge_cases n (length b)) as [H|H].
  - now rewrite Nat.min_l.
  - rewrite Nat.min_r by exact H. now rewrite !firstn_all2 by lia.
Qed.

(** Where lowering keeps the length of the text before the first
    match and of the match, the snippet is the 50 characters before
    the match, the match, and the 50 characters after it, each clipped
    to the content, with line feeds as spaces. *)
Lemma snippet_of_first_match (U : unicode) (query a m b : pystr) :
  lower U m = lower U query ->
  length m = length query ->
  length (lower U a) = length a ->
  (forall j, (j < length a)%nat ->
     startswith (lower U query) (skipn j (lower U (a ++ m ++ b))) = false) ->
  snippet_of U query (a ++ m ++ b) =
  replace_newlines (skipn (length a - 50) a ++ m ++ firstn 50 b).
Proof.
  intros Hm Hlen Ha Hno. unfold snippet_of.
  assert (Hidx : find (lower U query) (lower U (a ++ m ++ b))
                 = Z.of_nat (length a)).
  { unfold find. rewrite lower_app.
    rewrite find_from_first.
    - rewrite Ha. lia.
    - rewrite lower_app, Hm. apply startswith_app.
    - intros j Hj. rewrite <- lower_app. apply Hno. lia. }
  rewrite Hidx. cbv zeta.
  replace (len query) with (len m) by (unfold len; now rewrite Hlen).
  f_equal. apply (slice_window a m b 50).
Qed.

(** C6 on the code: in this note of 200 characters [apple] is at
    offset 100, and the snippet holds the characters [51,156) of the
    content, not [50,155): the match is sought in the lowered content,
    where U+0130 has become two characters, and the offset found there
    is used in the content itself. *)
Theorem snippet_offset_from_lowered :
  len note_dotted_I = 200%Z /\
  slice 100 105 note_dotted_I = lit "apple" /\
  find (lit "apple") note_dotted_I = 100%Z /\
  find (lower sample_unicode (lit "apple")) (lower sample_unicode note_dotted_I)
    = 101%Z /\
  map e_snippet
      (full_text_search sample_unicode host_v vault_dotted_I (lit "apple") 20)
    = [Some (ellipsis ++ slice 51 156 note_dotted_I ++ ellipsis)] /\
  slice 51 156 note_dotted_I <> slice 50 155 note_dotted_I.
Proof.
  repeat split; try (vm_compute; reflexivity).
  vm_compute. discriminate.
Qed.

(** ** Tags *)

Lemma take_drop_while (f : N -> bool) (s : pystr) :
  s = take_while f s ++ drop_while f s.
Proof.
  induction s as [|c s IH]; simpl; [reflexivity|].
  destruct (f c); simpl; [now f_equal|reflexivity].
Qed.

Lemma take_while_all (f : N -> bool) (s : pystr) :
  forallb f (take_while f s) = true.
Proof.
  induction s as [|c s IH]; simpl; [reflexivity|].
  destruct (f c) eqn:E; simpl; [now rewrite E|reflexivity].
Qed.

Lemma drop_while_head (f : N -> bool) (s : pystr) :
  match drop_while f s with
  | [] => True
  | c :: _ => f c = false
  end.
Proof.
  induction s as [|c s IH]; simpl; [exact I|].
  destruct (f c) eqn:E; simpl; [exact IH|exact E].
Qed.


(** Each tag found is a longest run of class characters after a [#]. *)
Lemma findall_from_sound (U : unicode) (fuel : nat) :
  forall s t,
    In t (findall_from U fuel s) ->
    t <> [] /\ forallb (tag_char U) t = true /\
    exists a b,
      s = a ++ [35%N] ++ t ++ b /\
      match b with
      | [] => True
      | c :: _ => tag_char U c = false
      end.
Proof.
  induction fuel as [|fuel IH]; intros s t Hin; [now destruct s|].
  destruct s as [|c s]; [contradiction Hin|]. simpl in Hin.
  destruct (N.eqb c 35) eqn:Ec.
  - apply N.eqb_eq in Ec; subst c.
    destruct (take_while (tag_char U) s) as [|x tag] eqn:Et.
    + destruct (IH _ _ Hin) as (Hne & Hall & a & b & -> & Hb).
      repeat split; auto. now exists (35%N :: a), b.
    + destruct Hin as [<-|Hin].
      * repeat split; [discriminate| |].
        { rewrite <- Et. apply take_while_all. }
        exists [], (drop_while (tag_char U) s). split.
        { rewrite <- Et. simpl. f_equal. apply take_drop_while. }
        apply drop_while_head.
      * destruct (IH _ _ Hin) as (Hne & Hall & a & b & Hs & Hb).
        repeat split; auto.
        exists (35%N :: (x :: tag) ++ a), b. split; [|exact Hb].
        simpl. f_equal. rewrite (take_drop_while (tag_char U) s), Et, Hs.
        simpl. now rewrite <- !app_assoc.
  - destruct (IH _ _ Hin) as (Hne & Hall & a & b & -> & Hb).
    repeat split; auto. now exists (c :: a), b.
Qed.






Lemma tag_lookup_add_tag (t t' n : pystr) (tags : list (pystr * list pystr)) :
  tag_lookup t (add_tag t' n tags) =
  if str_eqb t t' then extend (tag_lookup t tags) [n]
  else tag_lookup t tags.
Proof.
  induction tags as [|[k names] tags IH]; simpl.
  - destruct (str_eqb t t'); reflexivity.
  - destruct (str_eqb t' k) eqn:Ek; simpl.
    + apply str_eqb_eq in Ek; subst k.
      destruct (str_eqb t t'); reflexivity.
    + destruct (str_eqb t k) eqn:Etk.
      * apply str_eqb_eq in Etk; subst k.
        destruct (str_eqb t t') eqn:Ett; [|reflexivity].
        apply str_eqb_eq in Ett; subst t'. now rewrite str_eqb_refl in Ek.
      * exact IH.
Qed.

Lemma extend_nil (o : option (list pystr)) : extend o [] = o.
Proof. destruct o as [l|]; simpl; [now rewrite app_nil_r|reflexivity]. Qed.

Lemma extend_app (o : option (list pystr)) (a b : list pystr) :
  extend (extend o a) b = extend o (a ++ b).
Proof.
  destruct o as [l|]; simpl.
  - now rewrite <- app_assoc.
  - destruct a; simpl; [reflexivity|]. destruct b; reflexivity.
Qed.

Lemma tag_lookup_fold (t n : pystr) (found : list pystr) :
  forall tags,
    tag_lookup t (fold_left (fun tags tag => add_tag tag n tags) found tags) =
    extend (tag_lookup t tags) (repeat n (count_tag t found)).
Proof.
  induction found as [|x found IH]; intros tags; simpl.
  - now rewrite extend_nil.
  - rewrite IH, tag_lookup_add_tag.
    destruct (str_eqb t x); simpl; [|reflexivity].
    now rewrite extend_app.
Qed.

Lemma tag_lookup_tags_loop (U : unicode) (h : host) (st : store) (t : pystr)
  (scan : list Path) :
  forall tags,
    tag_lookup t (tags_loop U h st scan tags) =
    extend (tag_lookup t tags) (names_of U h st t scan).
Proof.
  induction scan as [|f scan IH]; intros tags; simpl.
  - now rewrite extend_nil.
  - destruct (is_hidden_or_system f); simpl; [apply IH|].
    destruct (read_text h st f) as [content|x]; simpl; [|apply IH].
    now rewrite IH, tag_lookup_fold, extend_app.
Qed.
























(** Two occurrences in one note give the name twice. *)
Lemma get_tags_duplicates :
  get_tags sample_unicode host_v
    [ ([lit "v"], Dir 0);
      ([lit "v"; lit "n.md"], File (Text (lit "#todo one, #todo two")) 1) ]
  = [ (lit "todo", [lit "n"; lit "n"]) ].
Proof. reflexivity. Qed.

(** ** Soft delete *)

(** C4 on the code: the trash path is [vault / ".trash" / path] with
    the [..] segments of [path] left in it, and it is not checked.
    - In the vault [/v], [../../v/a.md] names the note [/v/a.md] and
      its trash path names the same file: [delete_note] reports
      success, nothing has moved, and the note can still be read at
      the path given.
    - In the vault [/a/b], [../../a/b/n.md] names the note
      [/a/b/n.md] and its trash path names [/a/a/b/n.md]:
      [delete_note] moves the note out of the vault, and reading the
      mirrored path under the trash folder is denied. *)
Theorem delete_note_dotdot :
  (inside_vault host_v (div (get_vault_path host_v) (lit "../../v/a.md")) = true /\
   snd (delete_note host_v vault_two_notes (lit "../../v/a.md"))
     = Trashed (lit "Moved to trash: ../../v/a.md") /\
   read_note host_v
     (fst (delete_note host_v vault_two_notes (lit "../../v/a.md")))
     (lit "../../v/a.md")
     = Note (lit "a") (lit "../../v/a.md") (lit "old") 1 3 /\
   lookup [lit "v"; lit ".trash"; lit "a.md"]
     (fst (delete_note host_v vault_two_notes (lit "../../v/a.md"))) = None) /\
  (inside_vault host_ab (div (get_vault_path host_ab) (lit "../../a/b/n.md")) = true /\
   snd (delete_note host_ab vault_ab (lit "../../a/b/n.md"))
     = Trashed (lit "Moved to trash: ../../a/b/n.md") /\
   lookup [lit "a"; lit "a"; lit "b"; lit "n.md"]
     (fst (delete_note host_ab vault_ab (lit "../../a/b/n.md")))
     = Some (File (Text (lit "kept")) 1) /\
   read_note host_ab
     (fst (delete_note host_ab vault_ab (lit "../../a/b/n.md")))
     (lit ".trash/../../a/b/n.md") = access_denied).
Proof. repeat split; reflexivity. Qed.

Lemma walk_app (st : store) (a b : list pystr) :
  forall cur,
    walk st cur (a ++ b) =
    match walk st cur a with
    | inl k => walk st k b
    | inr e => inr e
    end.
Proof.
  induction a as [|c a IH]; intros cur; simpl; [reflexivity|].
  destruct (node_at st cur) as [[d m|m]|]; try reflexivity. apply IH.
Qed.

Lemma walk_plain (st : store) (segs : list pystr) :
  ~ In dotdot segs ->
  forall cur k, walk st cur segs = inl k -> k = cur ++ segs.
Proof.
  induction segs as [|c segs IH]; intros Hno cur k Hw; simpl in *.
  - inversion Hw. now rewrite app_nil_r.
  - destruct (node_at st cur) as [[d m|m]|]; try discriminate.
    destruct (str_eqb c dotdot) eqn:E.
    + apply str_eqb_eq in E. exfalso. apply Hno. now left.
    + apply IH in Hw; [|tauto]. now rewrite Hw, <- app_assoc.
Qed.

Lemma walk_dirs_kept (st st' : store) :
  dirs_kept st st' ->
  forall comps cur k, walk st cur comps = inl k -> walk st' cur comps = inl k.
Proof.
  intros Hk. induction comps as [|c comps IH]; intros cur k Hw; simpl in *.
  - exact Hw.
  - destruct (node_at st cur) as [[d m|m]|] eqn:Hc; try discriminate.
    destruct (Hk cur (ex_intro _ m Hc)) as [m' ->]. now apply IH.
Qed.

Lemma grows_dirs_kept (st st' : store) : grows st st' -> dirs_kept st st'.
Proof. intros Hg k [m Hm]. exists m. now apply Hg. Qed.

Lemma grows_refl (st : store) : grows st st.
Proof. now intros k n H. Qed.

Lemma grows_trans (a b c : store) : grows a b -> grows b c -> grows a c.
Proof. intros H1 H2 k n H. now apply H2, H1. Qed.

Lemma os_mkdir_grows (h : host) (p : Path) (st st' : store) :
  os_mkdir h p st = inl st' -> grows st st'.
Proof.
  unfold os_mkdir. destruct (locate h st p) as [k|e]; simpl; [|discriminate].
  destruct (node_at st k) eqn:Hk; [discriminate|].
  destruct (creatable p); [|discriminate].
  intros H; inversion H; subst st'; clear H.
  intros k' n Hn. rewrite node_at_set_neq; [exact Hn|]. congruence.
Qed.

Lemma mkdir_exist_ok_grows (h : host) (p : Path) (st st' : store) (r : exn unit) :
  mkdir_exist_ok h p st = (st', r) -> grows st st'.
Proof.
  unfold mkdir_exist_ok. destruct (os_mkdir h p st) as [s|e] eqn:E.
  - intros H; inversion H; subst. now apply os_mkdir_grows in E.
  - destruct e; try destruct (_ && _); intros H; inversion H; apply grows_refl.
Qed.

Lemma mkdir_parents_grows (n : nat) :
  forall (h : host) (p : Path) (st st' : store) (r : exn unit),
    mkdir_parents n h p st = (st', r) -> grows st st'.
Proof.
  induction n as [|n IH]; intros h p st st' r; simpl;
    destruct (os_mkdir h p st) as [s|e] eqn:E.
  - intros H; inversion H; subst. now apply os_mkdir_grows in E.
  - destruct e; try destruct (_ && _); intros H; inversion H; apply grows_refl.
  - intros H; inversion H; subst. now apply os_mkdir_grows in E.
  - destruct e; try (destruct (_ && _); intros H; inversion H; apply grows_refl).
    destruct (mkdir_parents n h (parent p) st) as [st1 [u|x]] eqn:M.
    + intros H. apply mkdir_exist_ok_grows in H. apply IH in M.
      now apply (grows_trans _ _ _ M).
    + intros H; inversion H; subst. now apply IH in M.
Qed.

Lemma lookup_remove_eq (k : location) (st : store) :
  lookup k (remove k st) = None.
Proof.
  induction st as [|[k' n'] st IH]; simpl; [reflexivity|].
  destruct (loc_eqb k k') eqn:E; simpl; [exact IH|]. now rewrite E.
Qed.

Lemma lookup_remove_neq (k k' : location) (st : store) :
  k' <> k -> lookup k' (remove k st) = lookup k' st.
Proof.
  intros Hne. induction st as [|[k0 n0] st IH]; simpl; [reflexivity|].
  destruct (loc_eqb k k0) eqn:E; simpl.
  - apply loc_eqb_eq in E; subst k0.
    apply loc_eqb_neq in Hne. now rewrite Hne.
  - now rewrite IH.
Qed.

Lemma node_at_remove_neq (k k' : location) (st : store) :
  k' <> k -> node_at (remove k st) k' = node_at st k'.
Proof.
  intros Hne. destruct k'; [reflexivity|]. now apply lookup_remove_neq.
Qed.

Lemma node_at_remove_eq (k : location) (st : store) :
  k <> [] -> node_at (remove k st) k = None.
Proof.
  destruct k; [congruence|]. intros _. apply lookup_remove_eq.
Qed.

Lemma read_note_of_entry (h : host) (st : store) (path s : pystr)
  (k : location) (m : Z) :
  entry_at h st (div (get_vault_path h) path) = inl (k, File (Text s) m) ->
  inside_vault h (div (get_vault_path h) path) = true ->
  read_note h st path =
  Note (stem (div (get_vault_path h) path)) path (universal_newlines s) m
       (utf8_size s).
Proof.
  intros He Hin. unfold read_note, exists_, read_text, stat.
  now rewrite He, Hin.
Qed.

Lemma read_note_inv (h : host) (st : store)
  (path name path' content : pystr) (m : Z) (size : N) :
  read_note h st path = Note name path' content m size ->
  exists k s,
    entry_at h st (div (get_vault_path h) path) = inl (k, File (Text s) m) /\
    inside_vault h (div (get_vault_path h) path) = true /\
    name = stem (div (get_vault_path h) path) /\ path' = path /\
    content = universal_newlines s /\ size = utf8_size s.
Proof.
  unfold read_note, exists_, read_text, stat, not_found, access_denied.
  destruct (entry_at h st (div (get_vault_path h) path)) as [[k n]|e];
    simpl; [|discriminate].
  destruct (inside_vault h (div (get_vault_path h) path)); simpl;
    [|discriminate].
  destruct n as [[s|b] m0|m0]; simpl; try discriminate.
  intros H; inversion H; subst. exists k, s. repeat split; reflexivity.
Qed.

Lemma div_trash (p : Path) (path : pystr) :
  is_absolute (path_of path) = false ->
  div p (lit ".trash/" ++ path) = div (div p trash_dir) path.
Proof.
  intros Hrel. unfold div, joinpath. rewrite Hrel.
  change (path_of (lit ".trash/" ++ path))
    with {| is_absolute := false;
            segments := trash_dir :: segments (path_of path) |}.
  simpl. now rewrite <- app_assoc.
Qed.

Lemma fold_dotdot_plain (segs : list pystr) :
  ~ In dotdot segs -> forall cur, fold_dotdot cur segs = cur ++ segs.
Proof.
  unfold fold_dotdot.
  induction segs as [|c segs IH]; intros Hno cur; simpl.
  - now rewrite app_nil_r.
  - destruct (str_eqb c dotdot) eqn:E.
    + apply str_eqb_eq in E. exfalso. apply Hno. now left.
    + rewrite IH by (intros H; apply Hno; now right). now rewrite <- app_assoc.
Qed.

Lemma fold_dotdot_app (cur : location) (a b : list pystr) :
  fold_dotdot cur (a ++ b) = fold_dotdot (fold_dotdot cur a) b.
Proof. unfold fold_dotdot. apply fold_left_app. Qed.

(** A plain path below a directory of the vault stays in the vault. *)
Lemma inside_vault_plain (h : host) (mid segs : list pystr) :
  ~ In dotdot mid -> ~ In dotdot segs ->
  inside_vault h
    {| is_absolute := is_absolute (get_vault_path h);
       segments := (segments (get_vault_path h) ++ mid) ++ segs |} = true.
Proof.
  intros Hm Hs. unfold inside_vault.
  generalize (get_vault_path h). intros [a vs].
  unfold resolve, start_of, path_str; cbn [is_absolute segments].
  rewrite !fold_dotdot_app.
  rewrite (fold_dotdot_plain segs Hs), (fold_dotdot_plain mid Hm).
  rewrite <- app_assoc.
  destruct (join_app_prefix slash
              (fold_dotdot (if a then [] else cwd h) vs)
              (mid ++ segs)) as [t ->].
  rewrite app_assoc. apply startswith_app.
Qed.

Lemma last_app_nonempty (a b : list pystr) (d : pystr) :
  b <> [] -> last (a ++ b) d = last b d.
Proof.
  intros Hb. induction a as [|x a IH]; [reflexivity|].
  simpl. destruct (a ++ b) eqn:E; [|exact IH].
  apply app_eq_nil in E as [_ E]. congruence.
Qed.

Lemma stem_same_name (p q : Path) : name p = name q -> stem p = stem q.
Proof. unfold stem. now intros ->. Qed.

Lemma entry_at_inv (h : host) (st : store) (p : Path) (k : location) (n : node) :
  entry_at h st p = inl (k, n) <->
  locate h st p = inl k /\ node_at st k = Some n.
Proof.
  unfold entry_at. destruct (locate h st p) as [k0|e]; simpl.
  - destruct (node_at st k0) as [n0|] eqn:E; split.
    + intros H; inversion H; subst. auto.
    + intros [H1 H2]; inversion H1; subst. rewrite E in H2. now inversion H2.
    + discriminate.
    + intros [H1 H2]; inversion H1; subst. rewrite E in H2. discriminate.
  - split; [discriminate|]. intros [H _]; discriminate.
Qed.

Lemma rename_file_inv (h : host) (src dst : Path) (st st2 : store)
  (ks kd : location) (d : filedata) (m : Z) :
  entry_at h st src = inl (ks, File d m) ->
  locate h st dst = inl kd ->
  ks <> kd ->
  rename h src dst st = (st2, inl tt) ->
  ks <> [] /\ ~ is_directory (node_at st kd) /\
  st2 = set kd (File d m) (remove ks st).
Proof.
  intros He Hl Hne. unfold rename. rewrite He, Hl.
  apply loc_eqb_neq in Hne. rewrite Hne.
  apply entry_at_inv in He as [_ Hn].
  destruct ks as [|c ks]; [discriminate Hn|].
  destruct (node_at st kd) as [[d' m'|m']|] eqn:Hd.
  - intros H; inversion H; subst. repeat split; try congruence.
    intros [x Hx]; discriminate.
  - discriminate.
  - destruct (creatable dst); [|discriminate].
    intros H; inversion H; subst. repeat split; try congruence.
    intros [x Hx]; discriminate.
Qed.

(** For a plain path, [delete_note] does what the specification says:
    once it has reported success, the note is not found at its path,
    and reading the same path under the trash folder returns what a
    read of the note returned before. *)
Lemma delete_note_moves (h : host) (st st' : store)
  (path name content msg : pystr) (m : Z) (size : N) :
  plain path ->
  read_note h st path = Note name path content m size ->
  delete_note h st path = (st', Trashed msg) ->
  read_note h st' path = not_found path /\
  read_note h st' (lit ".trash/" ++ path) =
    Note name (lit ".trash/" ++ path) content m size.
Proof.
  intros (Hrel & Hne & Hno) Hread Hdel.
  destruct (read_note_inv _ _ _ _ _ _ _ _ Hread)
    as (ks & s & He & Hin & -> & _ & -> & ->).
  unfold delete_note in Hdel. unfold exists_ in Hdel.
  rewrite He, Hin in Hdel. simpl in Hdel.
  set (fp := div (get_vault_path h) path) in *.
  set (tp := div (div (get_vault_path h) trash_dir) path) in *.
  destruct (mkdir h (parent tp) st) as [st1 [[]|x]] eqn:Hmk; [|discriminate].
  destruct (rename h fp tp st1) as [st2 [[]|x]] eqn:Hrn; [|discriminate].
  inversion Hdel; subst st2; clear Hdel.
  (* the store after [mkdir] *)
  assert (Hg : grows st st1) by (eapply mkdir_parents_grows; exact Hmk).
  apply entry_at_inv in He as [Hl Hn].
  assert (Hl1 : locate h st1 fp = inl ks)
    by (apply (walk_dirs_kept st st1 (grows_dirs_kept _ _ Hg)); exact Hl).
  assert (Hn1 : node_at st1 ks = Some (File (Text s) m)) by (now apply Hg).
  (* the two locations *)
  assert (Hfp : fp = {| is_absolute := is_absolute (get_vault_path h);
                        segments := segments (get_vault_path h)
                                    ++ segments (path_of path) |}).
  { unfold fp, div, joinpath. now rewrite Hrel. }
  assert (Htp : tp = {| is_absolute := is_absolute (get_vault_path h);
                        segments := (segments (get_vault_path h) ++ [trash_dir])
                                    ++ segments (path_of path) |}).
  { unfold tp, div, joinpath. now rewrite Hrel. }
  destruct (locate h st1 tp) as [kd|x] eqn:Hld.
  2:{ unfold rename in Hrn. rewrite Hld in Hrn.
      destruct (entry_at h st1 fp) as [[? ?]|?]; discriminate. }
  assert (Hks : exists kv, ks = kv ++ segments (path_of path) /\
                           kd = (kv ++ [trash_dir]) ++ segments (path_of path)).
  { unfold locate in Hl1, Hld. rewrite Hfp in Hl1. rewrite Htp in Hld.
    cbn [is_absolute segments start_of] in Hl1, Hld.
    unfold start_of in *. cbn [is_absolute] in *.
    rewrite walk_app in Hl1. rewrite !walk_app in Hld.
    destruct (walk st1 _ (segments (get_vault_path h))) as [kv|x] eqn:Hv;
      [|discriminate].
    exists kv. split; [now apply (walk_plain st1 _ Hno)|].
    destruct (walk st1 kv [trash_dir]) as [k1|x] eqn:Ht; [|discriminate].
    apply (walk_plain st1 _ Hno) in Hld. subst kd. f_equal.
    apply (walk_plain st1 [trash_dir]); [|exact Ht].
    simpl. intros [H|[]]. discriminate H. }
  destruct Hks as (kv & Eks & Ekd).
  assert (Hdiff : ks <> kd).
  { intros E. apply (f_equal (@length _)) in E. subst ks kd.
    rewrite !length_app in E. simpl in E. lia. }
  destruct (rename_file_inv h fp tp st1 st' ks kd (Text s) m) as (Hk0 & Hnd & ->);
    auto.
  { now apply entry_at_inv. }
  assert (Hkd0 : kd <> []).
  { subst kd. intros E. apply app_eq_nil in E as [E _].
    apply app_eq_nil in E as [_ E]. discriminate. }
  set (st2 := set kd (File (Text s) m) (remove ks st1)).
  assert (Hkept : dirs_kept st1 st2).
  { intros k [m0 Hm0]. exists m0. unfold st2.
    rewrite node_at_set_neq, node_at_remove_neq; auto.
    - intros ->. congruence.
    - intros ->. apply Hnd. now exists m0. }
  split.
  - unfold read_note, exists_. fold fp.
    assert (Ee : entry_at h st2 fp = inr FileNotFoundError).
    { unfold entry_at, locate.
      rewrite (walk_dirs_kept st1 st2 Hkept _ _ _ Hl1). simpl.
      unfold st2. rewrite node_at_set_neq by exact Hdiff.
      now rewrite node_at_remove_eq. }
    now rewrite Ee.
  - assert (Edv : div (get_vault_path h) (lit ".trash/" ++ path) = tp)
      by (apply div_trash; exact Hrel).
    rewrite (read_note_of_entry h st2 _ s kd m).
    + f_equal. rewrite Edv. apply stem_same_name. unfold name.
      rewrite Hfp, Htp. cbn [segments].
      now rewrite !last_app_nonempty.
    + rewrite Edv. apply entry_at_inv. split.
      * exact (walk_dirs_kept st1 st2 Hkept _ _ _ Hld).
      * unfold st2. now apply node_at_set_eq.
    + rewrite Edv, Htp. apply inside_vault_plain; [|exact Hno].
      simpl. intros [H|[]]. discriminate H.
Qed.

Lemma delete_note_moves_example :
  read_note host_v (fst (delete_note host_v vault_two_notes (lit "a.md")))
    (lit "a.md") = not_found (lit "a.md") /\
  read_note host_v (fst (delete_note host_v vault_two_notes (lit "a.md")))
    (lit ".trash/a.md") = Note (lit "a") (lit ".trash/a.md") (lit "old") 1 3.
Proof.
  apply (delete_note_moves host_v vault_two_notes _ (lit "a.md") (lit "a")
           (lit "old") (lit "Moved to trash: a.md") 1 3).
  - repeat split; [discriminate|].
    simpl. intros [H|[]]. discriminate H.
  - reflexivity.
  - reflexivity.
Qed.

(** The containment test compares strings: a sibling directory whose
    name extends the vault's passes it, and [write_note] writes there. *)
Lemma prefix_test_admits_sibling :
  path_str (resolve host_v (div (get_vault_path host_v) (lit "../v2/note.md")))
    = lit "/v2/note.md" /\
  inside_vault host_v (div (get_vault_path host_v) (lit "../v2/note.md")) = true /\
  snd (write_note host_v vault_two_notes (lit "../v2/note.md") (lit "hi"))
    = Saved (lit "../v2/note.md") (lit "Note saved: ../v2/note.md") /\
  lookup [lit "v2"; lit "note.md"]
    (fst (write_note host_v vault_two_notes (lit "../v2/note.md") (lit "hi")))
    = Some (File (Text (lit "hi")) 100).
Proof. repeat split; reflexivity. Qed.

(** The example of the specification, where it holds: [apple] at
    offset 100 of a content of 200 characters, no match before it, and
    a text before it whose lowering has its length. *)
Lemma snippet_apple_at_100 (U : unicode) (a b : pystr) :
  lower U (lit "apple") = lit "apple" ->
  length a = 100%nat -> length b = 95%nat ->
  length (lower U a) = length a ->
  (forall j, (j < length a)%nat ->
     startswith (lit "apple") (skipn j (lower U (a ++ lit "apple" ++ b))) = false) ->
  len (a ++ lit "apple" ++ b) = 200%Z /\
  snippet_of U (lit "apple") (a ++ lit "apple" ++ b) =
  replace_newlines (slice 50 155 (a ++ lit "apple" ++ b)).
Proof.
  intros Hq Ha Hb Hla Hno.
  assert (Hlen : len (a ++ lit "apple" ++ b) = 200%Z).
  { unfold len. rewrite !length_app, Ha, Hb. reflexivity. }
  split; [exact Hlen|].
  rewrite (snippet_of_first_match U (lit "apple") a (lit "apple") b);
    auto; [|now rewrite Hq].
  f_equal. rewrite <- (slice_window a (lit "apple") b 50).
  rewrite Hlen, Ha. reflexivity.
Qed.

(* ================================================================== *)
(** * Further properties of the operations *)
(* ================================================================== *)

(** ** What the scanning loops return *)

Lemma in_somes (e : entry) (found : list (option entry)) :
  In e (somes found) <-> In (Some e) found.
Proof.
  induction found as [|[x|] found IH]; simpl.
  - tauto.
  - rewrite IH. split; intros [H|H]; auto.
    + left. now f_equal.
    + left. now inversion H.
  - rewrite IH. split; [auto|]. intros [H|H]; [discriminate|exact H].
Qed.

Lemma in_firstn (A : Type) (n : nat) (l : list A) (x : A) :
  In x (firstn n l) -> In x l.
Proof.
  revert l; induction n as [|n IH]; intros [|y l]; simpl; try tauto.
  intros [H|H]; auto.
Qed.

Lemma capped_in (limit : Z) (found : list (option entry)) (e : entry) :
  In e (capped limit found []) -> In (Some e) found.
Proof.
  rewrite capped_firstn. simpl. intros H.
  apply in_firstn in H. now apply in_somes.
Qed.

Lemma capped_length (limit : Z) (found : list (option entry)) :
  (Z.of_nat (length (capped limit found [])) <= Z.max 1 limit)%Z.
Proof.
  rewrite capped_firstn. simpl. rewrite Z.sub_0_r.
  assert (H := firstn_le_length (Z.to_nat (Z.max 1 limit)) (somes found)).
  rewrite length_firstn. lia.
Qed.

(** Raising the bound only appends results. *)
Lemma capped_prefix (l1 l2 : Z) (found : list (option entry)) :
  (1 <= l1 <= l2)%Z ->
  capped l1 found [] = firstn (Z.to_nat l1) (capped l2 found []).
Proof.
  intros H. rewrite !capped_firstn. simpl. rewrite !Z.sub_0_r.
  rewrite firstn_firstn. f_equal. lia.
Qed.

Lemma rglob_md (h : host) (st : store) (p f : Path) :
  In f (rglob true h st p) -> endswith md_suffix (name f) = true.
Proof.
  unfold rglob. destruct (entry_at h st p) as [[k [d m|m]]|e]; simpl; try tauto.
  rewrite in_flat_map. intros ([k' n] & _ & Hx). simpl in Hx.
  destruct (strip_prefix k k') as [[|c rest]|]; simpl in Hx; try tauto.
  match type of Hx with
  | In _ (if ?b then _ else _) => destruct b eqn:E; simpl in Hx; [|tauto]
  end.
  destruct Hx as [<-|[]]. unfold name, joinpath. simpl segments.
  rewrite last_app_nonempty by discriminate. exact E.
Qed.

(** X1: The listing is a rearrangement of the first [limit] matches
    that the scan meets (of the first one when [limit] is below one),
    so it holds at most that many dictionaries. *)
Theorem list_markdown_files_first_matches (h : host) (st : store)
  (folder : option pystr) (limit : Z) :
  Permutation
    (firstn (Z.to_nat (Z.max 1 limit))
       (collect_all h st (get_vault_path h)
          (rglob true h st (search_path h folder))))
    (list_markdown_files h st folder limit) /\
  (Z.of_nat (length (list_markdown_files h st folder limit)) <= Z.max 1 limit)%Z.
Proof.
  rewrite list_markdown_files_cut_then_sorted. split.
  - apply sorted_desc_perm.
  - rewrite sorted_desc_length, length_firstn. lia.
Qed.

(** X2: Every dictionary of the listing describes a Markdown entry below
    the scanned folder that is not hidden: its name is the entry's
    stem, its path the entry's path relative to the vault, its time
    and size what [stat] reports. *)
Theorem list_markdown_files_sound (h : host) (st : store)
  (folder : option pystr) (limit : Z) (e : entry) :
  In e (list_markdown_files h st folder limit) ->
  exists f rel s,
    In f (rglob true h st (search_path h folder)) /\
    endswith md_suffix (name f) = true /\
    is_hidden_or_system f = false /\
    relative_to f (get_vault_path h) = Some rel /\
    stat h st f = inl s /\
    e = {| e_name := stem f; e_path := path_str rel;
           e_modified := st_mtime s; e_size := Some (st_size s);
           e_snippet := None |}.
Proof.
  rewrite list_markdown_files_cut_then_sorted. intros H.
  apply (Permutation_in _ (Permutation_sym (sorted_desc_perm _))) in H.
  apply in_firstn in H. rewrite collect_all_somes in H.
  apply in_somes, in_map_iff in H as (f & Hstep & Hf).
  unfold list_step, list_entry in Hstep.
  destruct (is_hidden_or_system f) eqn:Hh; [discriminate|].
  destruct (stat h st f) as [s|x] eqn:Hs; simpl in Hstep; [|discriminate].
  destruct (relative_to f (get_vault_path h)) as [rel|] eqn:Hr;
    simpl in Hstep; [|discriminate].
  inversion Hstep; subst e. exists f, rel, s.
  repeat split; auto. eapply rglob_md; exact Hf.
Qed.

Lemma list_markdown_files_sound_witness :
  exists f rel s,
    In f (rglob true host_v vault_two_notes (search_path host_v None)) /\
    endswith md_suffix (name f) = true /\
    is_hidden_or_system f = false /\
    relative_to f (get_vault_path host_v) = Some rel /\
    stat host_v vault_two_notes f = inl s /\
    entry_a = {| e_name := stem f; e_path := path_str rel;
                 e_modified := st_mtime s; e_size := Some (st_size s);
                 e_snippet := None |}.
Proof.
  apply (list_markdown_files_sound host_v vault_two_notes None 5 entry_a).
  right; left; reflexivity.
Defined.

(** ** The searches *)

(** X5: Every result of the title search is a Markdown entry of the vault
    that is not hidden and whose stem contains the query, both in
    lower case; there are at most [limit] results (one when [limit] is
    below one). *)
Theorem search_by_title_sound (U : unicode) (h : host) (st : store)
  (query : pystr) (limit : Z) :
  (Z.of_nat (length (search_by_title U h st query limit)) <= Z.max 1 limit)%Z /\
  forall e,
    In e (search_by_title U h st query limit) ->
    exists f rel,
      In f (rglob true h st (get_vault_path h)) /\
      endswith md_suffix (name f) = true /\
      is_hidden_or_system f = false /\
      contains (lower U query) (lower U (stem f)) = true /\
      relative_to f (get_vault_path h) = Some rel /\
      e_name e = stem f /\ e_path e = path_str rel /\
      e_size e = None /\ e_snippet e = None.
Proof.
  unfold search_by_title. rewrite title_loop_capped.
  split; [apply capped_length|].
  intros e H. apply capped_in, in_map_iff in H as (f & Hstep & Hf).
  unfold title_step, title_entry in Hstep.
  destruct (is_hidden_or_system f) eqn:Hh; [discriminate|].
  destruct (contains (lower U query) (lower U (stem f))) eqn:Hc; [|discriminate].
  destruct (stat h st f) as [s|x]; simpl in Hstep; [|discriminate].
  destruct (relative_to f (get_vault_path h)) as [rel|] eqn:Hr;
    simpl in Hstep; [|discriminate].
  inversion Hstep; subst e. exists f, rel.
  repeat split; auto. eapply rglob_md; exact Hf.
Qed.

Lemma replace_newlines_free (s : pystr) : ~ In 10%N (replace_newlines s).
Proof.
  unfold replace_newlines. rewrite in_map_iff. intros (c & Hc & _).
  destruct (N.eqb c 10) eqn:E; [discriminate|].
  apply N.eqb_neq in E. congruence.
Qed.

Lemma find_from_lower_bound (sub s : pystr) (i : Z) :
  (find_from i sub s = -1 \/ i <= find_from i sub s)%Z.
Proof.
  revert i; induction s as [|c s IH]; intros i; simpl.
  - destruct (startswith sub []); [right; lia|left; reflexivity].
  - destruct (startswith sub (c :: s)); [right; lia|].
    destruct (IH (i + 1)%Z) as [H|H]; [left; exact H|right; lia].
Qed.

(** The snippet has no line feed and is at most 100 characters longer
    than the query, whatever the content. *)
Lemma snippet_of_bounds (U : unicode) (query content : pystr) :
  ~ In 10%N (snippet_of U query content) /\
  (length (snippet_of U query content) <= length query + 100)%nat.
Proof.
  unfold snippet_of. split; [apply replace_newlines_free|].
  unfold replace_newlines, slice, len. rewrite length_map, length_firstn.
  destruct (find_from_lower_bound (lower U query) (lower U content) 0) as [H|H];
    unfold find; lia.
Qed.

(** X6: Every result of the full-text search is a Markdown entry of the
    vault that is not hidden, whose file can be read as text and whose
    content contains the query, both in lower case; its snippet is the
    window of the content between two ellipses, without line feeds and
    at most 100 characters longer than the query; there are at most
    [limit] results (one when [limit] is below one). *)
Theorem full_text_search_sound (U : unicode) (h : host) (st : store)
  (query : pystr) (limit : Z) :
  (Z.of_nat (length (full_text_search U h st query limit)) <= Z.max 1 limit)%Z /\
  forall e,
    In e (full_text_search U h st query limit) ->
    exists f content snippet,
      In f (rglob true h st (get_vault_path h)) /\
      is_hidden_or_system f = false /\
      read_text h st f = inl content /\
      contains (lower U query) (lower U content) = true /\
      e_name e = stem f /\
      e_snippet e = Some (ellipsis ++ snippet ++ ellipsis) /\
      snippet = snippet_of U query content /\
      ~ In 10%N snippet /\
      (length snippet <= length query + 100)%nat.
Proof.
  unfold full_text_search. rewrite text_loop_capped.
  split; [apply capped_length|].
  intros e H. apply capped_in, in_map_iff in H as (f & Hstep & Hf).
  unfold text_step, text_entry in Hstep.
  destruct (is_hidden_or_system f) eqn:Hh; [discriminate|].
  destruct (read_text h st f) as [content|x] eqn:Hr; simpl in Hstep;
    [|discriminate].
  destruct (contains (lower U query) (lower U content)) eqn:Hc;
    [|discriminate].
  destruct (stat h st f) as [s|x]; simpl in Hstep; [|discriminate].
  destruct (relative_to f (get_vault_path h)) as [rel|];
    simpl in Hstep; [|discriminate].
  inversion Hstep; subst e. exists f, content, (snippet_of U query content).
  destruct (snippet_of_bounds U query content) as [Hn Hl].
  repeat split; auto.
Qed.

(** X7: Raising the bound of a search only appends results: with bounds
    [1 <= l1 <= l2], the results for [l1] are the first [l1] of the
    results for [l2]. *)
Theorem search_limit_prefix (U : unicode) (h : host) (st : store)
  (query : pystr) (l1 l2 : Z) :
  (1 <= l1 <= l2)%Z ->
  search_by_title U h st query l1 =
    firstn (Z.to_nat l1) (search_by_title U h st query l2) /\
  full_text_search U h st query l1 =
    firstn (Z.to_nat l1) (full_text_search U h st query l2).
Proof.
  intros H. unfold search_by_title, full_text_search.
  rewrite !title_loop_capped, !text_loop_capped.
  split; now apply capped_prefix.
Qed.

Lemma search_limit_prefix_witness :
  search_by_title sample_unicode host_v vault_two_notes [] 1 =
    firstn 1 (search_by_title sample_unicode host_v vault_two_notes [] 2) /\
  full_text_search sample_unicode host_v vault_two_notes [] 1 =
    firstn 1 (full_text_search sample_unicode host_v vault_two_notes [] 2).
Proof.
  apply (search_limit_prefix sample_unicode host_v vault_two_notes [] 1 2).
  lia.
Defined.

Lemma search_by_title_sound_witness :
  exists f rel,
    In f (rglob true host_v vault_two_notes (get_vault_path host_v)) /\
    endswith md_suffix (name f) = true /\
    is_hidden_or_system f = false /\
    contains (lower sample_unicode (lit "A")) (lower sample_unicode (stem f))
      = true /\
    relative_to f (get_vault_path host_v) = Some rel /\
    e_name title_a = stem f /\ e_path title_a = path_str rel /\
    e_size title_a = None /\ e_snippet title_a = None.
Proof.
  apply (proj2 (search_by_title_sound sample_unicode host_v vault_two_notes
                  (lit "A") 5) title_a).
  left; reflexivity.
Defined.

Lemma full_text_search_sound_witness :
  exists f content snippet,
    In f (rglob true host_v vault_two_notes (get_vault_path host_v)) /\
    is_hidden_or_system f = false /\
    read_text host_v vault_two_notes f = inl content /\
    contains (lower sample_unicode (lit "OLD")) (lower sample_unicode content)
      = true /\
    lit "a" = stem f /\
    Some (lit "...old...") = Some (ellipsis ++ snippet ++ ellipsis) /\
    snippet = snippet_of sample_unicode (lit "OLD") content /\
    ~ In 10%N snippet /\
    (length snippet <= length (lit "OLD") + 100)%nat.
Proof.
  apply (proj2 (full_text_search_sound sample_unicode host_v vault_two_notes
                  (lit "OLD") 5)
           {| e_name := lit "a"; e_path := lit "a.md"; e_modified := 1;
              e_size := None; e_snippet := Some (lit "...old...") |}).
  left; reflexivity.
Defined.

(** ** Folders and statistics *)

Lemma strip_prefix_refl_app (a r : list pystr) :
  strip_prefix a (a ++ r) = Some r.
Proof.
  induction a as [|x a IH]; simpl; [reflexivity|].
  now rewrite str_eqb_refl.
Qed.

Lemma relative_to_scanned (md_only : bool) (h : host) (st : store) (p f : Path) :
  In f (rglob md_only h st p) ->
  exists rel, relative_to f p = Some rel /\ f = joinpath p rel /\
              is_absolute rel = false /\ segments rel <> [].
Proof.
  unfold rglob. destruct (entry_at h st p) as [[k [d m|m]]|e]; simpl; try tauto.
  rewrite in_flat_map. intros ([k' n] & _ & Hx). simpl in Hx.
  destruct (strip_prefix k k') as [[|c rest]|]; simpl in Hx; try tauto.
  match type of Hx with
  | In _ (if ?b then _ else _) => destruct b; simpl in Hx; [|tauto]
  end.
  destruct Hx as [<-|[]].
  exists {| is_absolute := false; segments := c :: rest |}.
  repeat split; try discriminate.
  unfold relative_to, joinpath. simpl.
  now rewrite eqb_reflx, strip_prefix_refl_app.
Qed.

Lemma folders_loop_spec (h : host) (st : store) (p : Path) (scan : list Path) :
  forall l,
    folders_loop h st p scan = inl l ->
    length l =
      length (filter (fun d => is_dir h st d && negb (is_hidden_or_system d))
                     scan) /\
    forall s, In s l ->
      exists d rel,
        In d scan /\ is_dir h st d = true /\
        is_hidden_or_system d = false /\
        relative_to d p = Some rel /\ s = path_str rel.
Proof.
  induction scan as [|f scan IH]; intros l Hl; simpl in *.
  - inversion Hl; subst. split; [reflexivity|]. intros s [].
  - destruct (is_dir h st f && negb (is_hidden_or_system f)) eqn:E.
    + destruct (relative_to f p) as [rel|] eqn:Hr; [|discriminate].
      destruct (folders_loop h st p scan) as [l0|x]; [|discriminate].
      simpl in Hl. inversion Hl; subst l; clear Hl.
      destruct (IH l0 eq_refl) as [Hlen Hall].
      apply andb_true_iff in E as [Hd Hh]. apply negb_true_iff in Hh.
      split; [simpl; now rewrite Hlen|].
      intros s [<-|Hs].
      * exists f, rel. repeat split; auto.
      * destruct (Hall s Hs) as (d & r & Hin & H).
        exists d, r. split; [now right|exact H].
    + destruct (IH l Hl) as [Hlen Hall]. split; [exact Hlen|].
      intros s Hs. destruct (Hall s Hs) as (d & r & Hin & H).
      exists d, r. split; [now right|exact H].
Qed.

Lemma str_leb_total (a b : pystr) : str_leb a b = false -> str_leb b a = true.
Proof.
  revert b; induction a as [|x a IH]; intros [|y b]; simpl; try discriminate;
    auto.
  destruct (N.ltb_spec x y), (N.ltb_spec y x); try discriminate; auto; lia.
Qed.

Lemma str_leb_trans (a b c : pystr) :
  str_leb a b = true -> str_leb b c = true -> str_leb a c = true.
Proof.
  revert b c; induction a as [|x a IH]; intros [|y b] [|z c]; simpl;
    try discriminate; auto.
  destruct (N.ltb_spec x y), (N.ltb_spec y x), (N.ltb_spec y z),
    (N.ltb_spec z y), (N.ltb_spec x z), (N.ltb_spec z x);
    try discriminate; auto; try lia.
  apply IH.
Qed.

Lemma insert_str_perm (x : pystr) (l : list pystr) :
  Permutation (x :: l) (insert_str x l).
Proof.
  induction l as [|y l IH]; simpl; [reflexivity|].
  destruct (str_leb x y); [reflexivity|].
  rewrite perm_swap. now constructor.
Qed.

Lemma sorted_str_perm (l : list pystr) : Permutation l (sorted_str l).
Proof.
  induction l as [|x l IH]; simpl; [reflexivity|].
  rewrite <- insert_str_perm. now constructor.
Qed.

Lemma insert_str_sorted (x : pystr) (l : list pystr) :
  ascending l -> ascending (insert_str x l).
Proof.
  unfold ascending. induction l as [|y l IH]; intros Hs; simpl.
  - repeat constructor.
  - inversion Hs as [|? ? Hl Hy]; subst.
    destruct (str_leb x y) eqn:E.
    + constructor; [exact Hs|]. constructor; [exact E|].
      rewrite Forall_forall in *. intros z Hz.
      apply (str_leb_trans x y z E). now apply Hy.
    + apply str_leb_total in E. constructor; [now apply IH|].
      rewrite Forall_forall in *. intros z Hz.
      apply (Permutation_in _ (Permutation_sym (insert_str_perm x l))) in Hz.
      destruct Hz as [<-|Hz]; [exact E|now apply Hy].
Qed.

Lemma sorted_str_sorted (l : list pystr) : ascending (sorted_str l).
Proof.
  induction l as [|x l IH]; simpl; [constructor|].
  now apply insert_str_sorted.
Qed.

(** X9: When [list_folders] returns, its result is in ascending order;
    each folder listed is the vault-relative path of a scanned
    directory that is not hidden; and there are as many folders as
    [get_vault_info] counts. *)
Theorem list_folders_sorted_counted (h : host) (st : store) (l : list pystr) :
  list_folders h st = inl l ->
  ascending l /\
  (forall s, In s l ->
     exists d rel,
       In d (rglob false h st (get_vault_path h)) /\
       is_dir h st d = true /\ is_hidden_or_system d = false /\
       relative_to d (get_vault_path h) = Some rel /\ s = path_str rel) /\
  (forall v n k, get_vault_info h st = Info v n k -> length l = k).
Proof.
  unfold list_folders.
  destruct (folders_loop h st (get_vault_path h)
              (rglob false h st (get_vault_path h))) as [l0|x] eqn:Hl;
    simpl; [|discriminate].
  intros H; inversion H; subst l; clear H.
  destruct (folders_loop_spec _ _ _ _ _ Hl) as [Hlen Hall].
  split; [apply sorted_str_sorted|]. split.
  - intros s Hs. apply Hall.
    exact (Permutation_in _ (Permutation_sym (sorted_str_perm l0)) Hs).
  - intros v n k Hi. unfold get_vault_info in Hi.
    destruct (negb (exists_ h st (get_vault_path h))); [discriminate|].
    inversion Hi; subst.
    rewrite <- (Permutation_length (sorted_str_perm l0)). exact Hlen.
Qed.

Lemma list_folders_sorted_counted_witness :
  ascending [lit "home"; lit "work"] /\
  (forall s, In s [lit "home"; lit "work"] ->
     exists d rel,
       In d (rglob false host_v vault_folders (get_vault_path host_v)) /\
       is_dir host_v vault_folders d = true /\
       is_hidden_or_system d = false /\
       relative_to d (get_vault_path host_v) = Some rel /\ s = path_str rel) /\
  (forall v n k,
     get_vault_info host_v vault_folders = Info v n k -> 2%nat = k).
Proof.
  apply (list_folders_sorted_counted host_v vault_folders
           [lit "home"; lit "work"]).
  reflexivity.
Defined.

Lemma somes_length_visible (step : Path -> option entry) (scan : list Path) :
  (forall f, is_hidden_or_system f = true -> step f = None) ->
  (length (somes (map step scan)) <=
   length (filter (fun f => negb (is_hidden_or_system f)) scan))%nat.
Proof.
  intros Hh. induction scan as [|f scan IH]; simpl; [lia|].
  destruct (is_hidden_or_system f) eqn:E; simpl.
  - now rewrite (Hh f E).
  - destruct (step f); simpl; lia.
Qed.

Lemma capped_length_somes (limit : Z) (found : list (option entry)) :
  (length (capped limit found []) <= length (somes found))%nat.
Proof.
  rewrite capped_firstn. simpl. rewrite length_firstn. lia.
Qed.

(** X10: No listing or search of the whole vault returns more notes than
    [get_vault_info] counts. *)
Theorem results_within_note_count (U : unicode) (h : host) (st : store)
  (v : pystr) (n k : nat) (query : pystr) (limit : Z) :
  get_vault_info h st = Info v n k ->
  (length (list_markdown_files h st None limit) <= n)%nat /\
  (length (search_by_title U h st query limit) <= n)%nat /\
  (length (full_text_search U h st query limit) <= n)%nat.
Proof.
  intros Hi. unfold get_vault_info in Hi.
  destruct (negb (exists_ h st (get_vault_path h))) eqn:Hex; [discriminate|].
  inversion Hi; subst v n k; clear Hi.
  unfold list_markdown_files, search_by_title, full_text_search.
  rewrite Hex, list_loop_capped, title_loop_capped, text_loop_capped.
  rewrite sorted_desc_length.
  repeat split;
    (eapply Nat.le_trans; [apply capped_length_somes|]);
    apply somes_length_visible; intros f Hf.
  - unfold list_step. now rewrite Hf.
  - unfold title_step. now rewrite Hf.
  - unfold text_step. now rewrite Hf.
Qed.

Lemma results_within_note_count_witness :
  (length (list_markdown_files host_v vault_folders None 50) <= 2)%nat /\
  (length (search_by_title sample_unicode host_v vault_folders (lit "l") 20)
     <= 2)%nat /\
  (length (full_text_search sample_unicode host_v vault_folders (lit "l") 20)
     <= 2)%nat.
Proof.
  apply (results_within_note_count sample_unicode host_v vault_folders
           (lit "/v") 2 2 (lit "l") 20).
  reflexivity.
Defined.

(** ** Writing *)

Lemma md_path_idem (path : pystr) : md_path (md_path path) = md_path path.
Proof.
  unfold md_path at 1. now rewrite endswith_md_path.
Qed.

(** X13: The Markdown extension is optional on write: a path without it is
    written exactly as the path with it. *)
Theorem write_note_extension_optional (h : host) (st : store)
  (path content : pystr) :
  write_note h st path content = write_note h st (md_path path) content.
Proof.
  rewrite !write_note_eq. now rewrite md_path_idem.
Qed.





Lemma set_set (k : location) (n : node) (st : store) :
  set k n (set k n st) = set k n st.
Proof.
  induction st as [|[k' n'] st IH]; simpl.
  - now rewrite loc_eqb_refl.
  - destruct (loc_eqb k k') eqn:E; simpl.
    + now rewrite loc_eqb_refl.
    + now rewrite E, IH.
Qed.

Lemma write_text_encodable (h : host) (p : Path) (content : pystr)
  (st st' : store) :
  write_text h p content st = (st', inl tt) -> encodable content = true.
Proof.
  unfold write_text. destruct (locate h st p) as [k|e]; [|discriminate].
  destruct (node_at st k) as [[d m|m]|]; try discriminate.
  - destruct (encodable content); [reflexivity|discriminate].
  - destruct (creatable p); [|discriminate].
    destruct (encodable content); [reflexivity|discriminate].
Qed.

(** [mkdir] of a directory that exists changes nothing. *)
Lemma mkdir_existing (n : nat) (h : host) (p : Path) (st : store) :
  is_dir h st p = true -> mkdir_parents n h p st = (st, ret tt).
Proof.
  intros Hd.
  assert (E : os_mkdir h p st = inr FileExistsError).
  { unfold os_mkdir. unfold is_dir, entry_at in Hd.
    destruct (locate h st p) as [k|e]; simpl in *; [|discriminate].
    destruct (node_at st k); [reflexivity|discriminate]. }
  destruct n; simpl; rewrite E, Hd; reflexivity.
Qed.

Lemma mkdir_parents_is_dir (n : nat) :
  forall (h : host) (p : Path) (st st' : store),
    mkdir_parents n h p st = (st', ret tt) -> is_dir h st' p = true.
Proof.
  assert (Hos : forall h p st st', os_mkdir h p st = inl st' ->
                                   is_dir h st' p = true).
  { intros h p st st'. unfold os_mkdir, is_dir, entry_at.
    destruct (locate h st p) as [k|e] eqn:Hl; simpl; [|discriminate].
    destruct (node_at st k) eqn:Hk; [discriminate|].
    destruct (creatable p) eqn:Hc; [|discriminate].
    intros H; inversion H; subst st'; clear H.
    assert (Hk0 : k <> []) by (intros ->; discriminate).
    unfold locate in *.
    rewrite (walk_dirs_kept st (set k (Dir (now h)) st)) with (k := k).
    - simpl. now rewrite node_at_set_eq.
    - intros k0 [m Hm]. exists m. rewrite node_at_set_neq; [exact Hm|].
      intros ->. congruence.
    - exact Hl. }
  assert (Hex : forall h p st st', mkdir_exist_ok h p st = (st', ret tt) ->
                                   is_dir h st' p = true).
  { intros h p st st'. unfold mkdir_exist_ok.
    destruct (os_mkdir h p st) as [s|e] eqn:E.
    - intros H; inversion H; subst. now apply Hos in E.
    - destruct e; simpl; try discriminate;
        destruct (is_dir h st p) eqn:D; try discriminate;
        intros H; inversion H; subst; exact D. }
  induction n as [|n IH]; intros h p st st'; simpl;
    destruct (os_mkdir h p st) as [s|e] eqn:E.
  - intros H; inversion H; subst. now apply Hos in E.
  - destruct e; simpl; try discriminate;
      destruct (is_dir h st p) eqn:D; try discriminate;
      intros H; inversion H; subst; exact D.
  - intros H; inversion H; subst. now apply Hos in E.
  - destruct e; simpl;
      try (destruct (is_dir h st p) eqn:D; try discriminate;
           intros H; inversion H; subst; exact D);
      try discriminate.
    destruct (mkdir_parents n h (parent p) st) as [st1 [u|x]]; [|discriminate].
    apply Hex.
Qed.

(** After [mkdir] has made a directory, it is a directory in every
    store that keeps the directories. *)
Lemma is_dir_kept (h : host) (p : Path) (st st' : store) :
  dirs_kept st st' -> is_dir h st p = true -> is_dir h st' p = true.
Proof.
  intros Hk. unfold is_dir, entry_at.
  destruct (locate h st p) as [k|e] eqn:Hl; simpl; [|discriminate].
  destruct (node_at st k) as [[d m|m]|] eqn:Hn; try discriminate.
  intros _. unfold locate in *.
  rewrite (walk_dirs_kept st st' Hk _ _ _ Hl). simpl.
  destruct (Hk k (ex_intro _ m Hn)) as [m' ->]. reflexivity.
Qed.

Lemma same_place_paths (h h' : host) :
  VAULT_PATH h' = VAULT_PATH h -> cwd h' = cwd h ->
  get_vault_path h' = get_vault_path h /\
  (forall p, inside_vault h' p = inside_vault h p) /\
  (forall st p, locate h' st p = locate h st p) /\
  (forall st p, is_dir h' st p = is_dir h st p).
Proof.
  destruct h as [v c n], h' as [v' c' n']. simpl. intros -> ->.
  repeat split.
Qed.

(** X15: A write that has succeeded can be repeated at any time: the
    same call on the resulting store, from the same working directory
    and for the same vault, succeeds with the same answer and changes
    nothing but the note's modified time (nothing at all when no time
    has passed). *)
Theorem write_note_idempotent (h h' : host) (st st' : store)
  (path content path' msg : pystr) :
  VAULT_PATH h' = VAULT_PATH h -> cwd h' = cwd h ->
  write_note h st path content = (st', Saved path' msg) ->
  exists k,
    entry_at h st' (div (get_vault_path h) path')
      = inl (k, File (Text content) (now h)) /\
    write_note h' st' path content
      = (set k (File (Text content) (now h')) st', Saved path' msg) /\
    (now h' = now h ->
     write_note h' st' path content = (st', Saved path' msg)).
Proof.
  intros Hv Hc.
  destruct (same_place_paths h h' Hv Hc) as (Ev & Ein & Eloc & Edir).
  rewrite !write_note_eq, Ev. cbv zeta.
  rewrite Ein.
  destruct (inside_vault h _) eqn:Hin; [|discriminate].
  set (fp := div (get_vault_path h) (md_path path)) in *.
  destruct (mkdir h (parent fp) st) as [st1 [[]|e]] eqn:Hm; [|discriminate].
  destruct (write_text h fp content st1) as [st2 [[]|e]] eqn:Hw; [|discriminate].
  intros H; inversion H; subst st2 path' msg; clear H.
  assert (Henc := write_text_encodable _ _ _ _ _ Hw).
  destruct (write_text_ok _ _ _ _ _ Hw) as (k & Hl & Hnd & Est).
  assert (Hk0 : k <> []) by (intros ->; apply Hnd; now exists 0%Z).
  assert (Hkept : dirs_kept st1 st').
  { subst st'. intros k0 [m Hm0]. exists m.
    rewrite node_at_set_neq; [exact Hm0|]. intros ->. apply Hnd. now exists m. }
  assert (Hd : is_dir h' st' (parent fp) = true).
  { rewrite Edir. apply (is_dir_kept h _ st1 st' Hkept).
    unfold mkdir in Hm. now apply mkdir_parents_is_dir in Hm. }
  assert (Hl' : locate h st' fp = inl k).
  { unfold locate in *. exact (walk_dirs_kept st1 st' Hkept _ _ _ Hl). }
  assert (Hn' : node_at st' k = Some (File (Text content) (now h))).
  { subst st'. now apply node_at_set_eq. }
  assert (Hw2 : write_note_step h' fp content st'
                = (set k (File (Text content) (now h')) st', ret tt)).
  { unfold write_note_step, mkdir.
    rewrite (mkdir_existing _ h' (parent fp) st' Hd).
    unfold write_text. now rewrite Eloc, Hl', Hn', Henc. }
  unfold write_note_step in Hw2.
  exists k. split; [|split].
  - apply entry_at_inv. split; assumption.
  - destruct (mkdir h' (parent fp) st') as [s1 [[]|e]]; [|discriminate].
    destruct (write_text h' fp content s1) as [s2 [[]|e]]; [|discriminate].
    now inversion Hw2.
  - intros Hnow.
    destruct (mkdir h' (parent fp) st') as [s1 [[]|e]]; [|discriminate].
    destruct (write_text h' fp content s1) as [s2 [[]|e]]; [|discriminate].
    inversion Hw2. rewrite Hnow. subst st'. now rewrite set_set.
Qed.

Lemma write_note_idempotent_witness :
  exists k,
    entry_at host_v
      (fst (write_note host_v vault_two_notes (lit "sub/note") (lit "hi")))
      (div (get_vault_path host_v) (lit "sub/note.md"))
      = inl (k, File (Text (lit "hi")) (now host_v)) /\
    write_note host_v_later
      (fst (write_note host_v vault_two_notes (lit "sub/note") (lit "hi")))
      (lit "sub/note") (lit "hi")
      = (set k (File (Text (lit "hi")) (now host_v_later))
           (fst (write_note host_v vault_two_notes (lit "sub/note") (lit "hi"))),
         Saved (lit "sub/note.md") (lit "Note saved: sub/note.md")) /\
    (now host_v_later = now host_v ->
     write_note host_v_later
       (fst (write_note host_v vault_two_notes (lit "sub/note") (lit "hi")))
       (lit "sub/note") (lit "hi")
     = (fst (write_note host_v vault_two_notes (lit "sub/note") (lit "hi")),
        Saved (lit "sub/note.md") (lit "Note saved: sub/note.md"))).
Proof.
  apply (write_note_idempotent host_v host_v_later vault_two_notes).
  - reflexivity.
  - reflexivity.
  - reflexivity.
Defined.

(** X16: A write that succeeds leaves the note's parent directory in
    place, made with its own parents where it was missing, and the
    note as a text file with the content and the time of the call. *)
Theorem write_note_creates_parents (h : host) (st st' : store)
  (path content path' msg : pystr) :
  write_note h st path content = (st', Saved path' msg) ->
  is_dir h st' (parent (div (get_vault_path h) path')) = true /\
  exists k,
    entry_at h st' (div (get_vault_path h) path')
      = inl (k, File (Text content) (now h)).
Proof.
  rewrite write_note_eq. cbv zeta.
  destruct (inside_vault h _) eqn:Hin; [|discriminate].
  set (fp := div (get_vault_path h) (md_path path)) in *.
  destruct (mkdir h (parent fp) st) as [st1 [[]|e]] eqn:Hm; [|discriminate].
  destruct (write_text h fp content st1) as [st2 [[]|e]] eqn:Hw; [|discriminate].
  intros H; inversion H; subst st2 path' msg; clear H. fold fp.
  split; [|now apply entry_at_written with (st := st1)].
  destruct (write_text_ok _ _ _ _ _ Hw) as (k & Hl & Hnd & Est).
  apply (is_dir_kept h _ st1 st').
  - subst st'. intros k0 [m Hm0]. exists m.
    rewrite node_at_set_neq; [exact Hm0|]. intros ->. apply Hnd. now exists m.
  - unfold mkdir in Hm. now apply mkdir_parents_is_dir in Hm.
Qed.

Lemma write_note_creates_parents_witness :
  is_dir host_v
    (fst (write_note host_v vault_two_notes (lit "x/y/note") (lit "hi")))
    (parent (div (get_vault_path host_v) (lit "x/y/note.md"))) = true /\
  exists k,
    entry_at host_v
      (fst (write_note host_v vault_two_notes (lit "x/y/note") (lit "hi")))
      (div (get_vault_path host_v) (lit "x/y/note.md"))
      = inl (k, File (Text (lit "hi")) (now host_v)).
Proof.
  apply (write_note_creates_parents host_v vault_two_notes _ (lit "x/y/note")
           (lit "hi") (lit "x/y/note.md") (lit "Note saved: x/y/note.md")).
  reflexivity.
Defined.

(** ** Soft delete of a plain path *)




(** ** The tool list and the dispatcher *)

(** [dispatch] at each served name. *)
Lemma dispatch_list_notes (U : unicode) (h : host) (st : store) (a : arguments) :
  dispatch U h st (lit "list_notes") a =
  (st, ret (Entries (list_markdown_files h st (arg_folder a) (limit_or 50 a)))).
Proof. reflexivity. Qed.

Lemma dispatch_get_note (U : unicode) (h : host) (st : store) (a : arguments) :
  dispatch U h st (lit "get_note") a =
  (st, path <- required "path" (arg_path a) ;; ret (read_note h st path)).
Proof. reflexivity. Qed.

Lemma dispatch_write (U : unicode) (h : host) (st : store) (a : arguments)
  (name : pystr) :
  name = lit "create_note" \/ name = lit "update_note" ->
  dispatch U h st name a =
  match (path <- required "path" (arg_path a) ;;
         content <- required "content" (arg_content a) ;;
         ret (path, content)) with
  | inl (path, content) =>
      let (st', r) := write_note h st path content in (st', ret r)
  | inr e => (st, raise e)
  end.
Proof. intros [->| ->]; reflexivity. Qed.

Lemma dispatch_search_notes (U : unicode) (h : host) (st : store)
  (a : arguments) :
  dispatch U h st (lit "search_notes") a =
  (st, query <- required "query" (arg_query a) ;;
       ret (Entries (search_by_title U h st query (limit_or 20 a)))).
Proof. reflexivity. Qed.

Lemma dispatch_full_text_search (U : unicode) (h : host) (st : store)
  (a : arguments) :
  dispatch U h st (lit "full_text_search") a =
  (st, query <- required "query" (arg_query a) ;;
       ret (Entries (full_text_search U h st query (limit_or 20 a)))).
Proof. reflexivity. Qed.

Lemma dispatch_list_folders (U : unicode) (h : host) (st : store)
  (a : arguments) :
  dispatch U h st (lit "list_folders") a =
  (st, l <- list_folders h st ;; ret (Folders l)).
Proof. reflexivity. Qed.

Lemma dispatch_get_tags (U : unicode) (h : host) (st : store) (a : arguments) :
  dispatch U h st (lit "get_tags") a = (st, ret (Tags (get_tags U h st))).
Proof. reflexivity. Qed.

Lemma dispatch_delete_note (U : unicode) (h : host) (st : store)
  (a : arguments) :
  dispatch U h st (lit "delete_note") a =
  match required "path" (arg_path a) with
  | inl path => let (st', r) := delete_note h st path in (st', ret r)
  | inr e => (st, raise e)
  end.
Proof. reflexivity. Qed.

Lemma dispatch_get_vault_info (U : unicode) (h : host) (st : store)
  (a : arguments) :
  dispatch U h st (lit "get_vault_info") a = (st, ret (get_vault_info h st)).
Proof. reflexivity. Qed.

(** X19: The required keys of [list_tools] are required by
    [call_tool]: for every tool advertised, when the argument object
    lacks a key that the tool's schema requires, the reply is the
    error object of the [KeyError] for the first such key, and the
    vault is left as it was. *)
Theorem missing_required_key (U : unicode) (h : host) (st : store)
  (t : Tool) (a : arguments) (key : string) :
  In t list_tools ->
  first_missing a (tool_required t) = Some key ->
  call_tool U h st (lit (tool_name t)) a
    = (st, Error (ExcStr (KeyError (lit key)))).
Proof.
  intros Hin. destruct a as [folder limit path content query].
  unfold list_tools in Hin. simpl in Hin.
  destruct Hin as [<-|[<-|[<-|[<-|[<-|[<-|[<-|[<-|[<-|[<-|[]]]]]]]]]]];
    cbn [tool_name tool_required]; unfold call_tool; intros Hk.
  - discriminate Hk.
  - rewrite dispatch_get_note.
    destruct path; cbv in Hk; inversion Hk; reflexivity.
  - rewrite (dispatch_write U h st _ _ (or_introl eq_refl)).
    destruct path, content; cbv in Hk; inversion Hk; reflexivity.
  - rewrite (dispatch_write U h st _ _ (or_intror eq_refl)).
    destruct path, content; cbv in Hk; inversion Hk; reflexivity.
  - rewrite dispatch_search_notes.
    destruct query; cbv in Hk; inversion Hk; reflexivity.
  - rewrite dispatch_full_text_search.
    destruct query; cbv in Hk; inversion Hk; reflexivity.
  - discriminate Hk.
  - discriminate Hk.
  - rewrite dispatch_delete_note.
    destruct path; cbv in Hk; inversion Hk; reflexivity.
  - discriminate Hk.
Qed.

Lemma missing_required_key_witness :
  call_tool sample_unicode host_v vault_two_notes (lit "create_note")
    {| arg_folder := None; arg_limit := None; arg_path := Some (lit "a.md");
       arg_content := None; arg_query := None |}
  = (vault_two_notes, Error (ExcStr (KeyError (lit "content")))).
Proof.
  apply (missing_required_key sample_unicode host_v vault_two_notes
           {| tool_name := "create_note";
              tool_description := "Create a new note or overwrite existing";
              tool_properties :=
                [prop "path" "string"
                      "Path for the note (e.g., 'folder/note.md')";
                 prop "content" "string" "Markdown content"];
              tool_required := ["path"; "content"]%string |}).
  - right; right; left; reflexivity.
  - reflexivity.
Defined.

(** X20: Only [create_note], [update_note] and [delete_note] change the
    vault: under every other name, served or not, and with any
    argument object, [call_tool] leaves the store as it was. *)
Theorem other_tools_read_only (U : unicode) (h : host) (st : store)
  (name : pystr) (a : arguments) :
  ~ In name writing_tools ->
  fst (call_tool U h st name a) = st.
Proof.
  intros Hn.
  assert (F : forall s, In (lit s) writing_tools -> tool s name = false).
  { intros s Hin. unfold tool. apply str_eqb_neq. intros ->. now apply Hn. }
  unfold call_tool, dispatch.
  rewrite (F "create_note"%string), (F "update_note"%string),
    (F "delete_note"%string) by (unfold writing_tools; simpl; auto).
  cbv beta iota delta [orb].
  repeat match goal with
         | |- context [if tool ?s name then _ else _] => destruct (tool s name)
         end;
    try reflexivity;
    try (destruct (required _ _); reflexivity).
  destruct (list_folders h st); reflexivity.
Qed.

Lemma other_tools_read_only_witness :
  fst (call_tool sample_unicode host_v vault_two_notes (lit "full_text_search")
         {| arg_folder := None; arg_limit := None; arg_path := None;
            arg_content := None; arg_query := Some (lit "old") |})
  = vault_two_notes.
Proof.
  apply (other_tools_read_only sample_unicode host_v vault_two_notes
           (lit "full_text_search")).
  unfold writing_tools; simpl; intros H.
  repeat (destruct H as [H|H]; [discriminate H|]). exact H.
Defined.

(** ** The tag mapping is well formed *)

Lemma add_tag_keys (t n : pystr) (tags : list (pystr * list pystr)) :
  map fst (add_tag t n tags) =
  if existsb (str_eqb t) (map fst tags) then map fst tags
  else map fst tags ++ [t].
Proof.
  induction tags as [|[k ns] tags IH]; simpl; [reflexivity|].
  destruct (str_eqb t k); simpl; [reflexivity|].
  rewrite IH. now destruct (existsb (str_eqb t) (map fst tags)).
Qed.

Lemma nodup_snoc (l : list pystr) (t : pystr) :
  NoDup l -> ~ In t l -> NoDup (l ++ [t]).
Proof.
  induction l as [|x l IH]; intros Hl Ht; simpl.
  - constructor; [tauto|constructor].
  - inversion Hl; subst. constructor.
    + rewrite in_app_iff. simpl. intros [H|[H|[]]]; [tauto|].
      apply Ht. now left.
    + apply IH; [assumption|]. intros H. apply Ht. now right.
Qed.

Lemma add_tag_nodup (t n : pystr) (tags : list (pystr * list pystr)) :
  NoDup (map fst tags) -> NoDup (map fst (add_tag t n tags)).
Proof.
  intros Hn. rewrite add_tag_keys.
  destruct (existsb (str_eqb t) (map fst tags)) eqn:E; [exact Hn|].
  apply nodup_snoc; [exact Hn|]. intros Hin.
  assert (existsb (str_eqb t) (map fst tags) = true).
  { apply existsb_exists. exists t. split; [exact Hin|apply str_eqb_refl]. }
  congruence.
Qed.

Lemma tags_loop_nodup (U : unicode) (h : host) (st : store) (scan : list Path) :
  forall tags,
    NoDup (map fst tags) -> NoDup (map fst (tags_loop U h st scan tags)).
Proof.
  induction scan as [|f scan IH]; intros tags Hn; simpl; [exact Hn|].
  destruct (is_hidden_or_system f); [now apply IH|].
  destruct (read_text h st f) as [content|x]; [|now apply IH].
  apply IH. generalize (findall_tags U content) tags Hn. clear.
  intros found. induction found as [|t found IH]; intros tags Hn; simpl;
    [exact Hn|].
  apply IH. now apply add_tag_nodup.
Qed.

Lemma tag_lookup_in (t : pystr) (names : list pystr)
  (tags : list (pystr * list pystr)) :
  NoDup (map fst tags) -> In (t, names) tags ->
  tag_lookup t tags = Some names.
Proof.
  induction tags as [|[k ns] tags IH]; intros Hn Hin; simpl in *; [tauto|].
  inversion Hn as [|? ? Hk Hn']; subst.
  destruct Hin as [E|Hin].
  - inversion E; subst. now rewrite str_eqb_refl.
  - destruct (str_eqb t k) eqn:Ek; [|now apply IH].
    apply str_eqb_eq in Ek; subst k. exfalso. apply Hk.
    apply in_map_iff. now exists (t, names).
Qed.

Lemma count_tag_pos (t : pystr) (found : list pystr) :
  (0 < count_tag t found)%nat -> In t found.
Proof.
  induction found as [|x found IH]; simpl; [lia|].
  destruct (str_eqb t x) eqn:E.
  - apply str_eqb_eq in E. auto.
  - intros H. right. apply IH. lia.
Qed.

Lemma names_of_inv (U : unicode) (h : host) (st : store) (t n : pystr)
  (scan : list Path) :
  In n (names_of U h st t scan) ->
  exists f content,
    In f scan /\ is_hidden_or_system f = false /\
    read_text h st f = inl content /\
    In t (findall_tags U content) /\ n = stem f.
Proof.
  unfold names_of. rewrite in_flat_map. intros (f & Hf & Hn).
  destruct (is_hidden_or_system f) eqn:Hh; [contradiction Hn|].
  destruct (read_text h st f) as [content|x] eqn:Hr; [|contradiction Hn].
  exists f, content. repeat split; auto.
  - apply count_tag_pos.
    destruct (count_tag t (findall_tags U content)); [contradiction Hn|lia].
  - now apply repeat_spec in Hn.
Qed.

(** X11: The mapping of [get_tags] has each key once; every key is a tag
    text (not empty, made of characters of the tag class); every key
    lists at least one name, and every name listed is the stem of a
    scanned note that is not hidden, can be read and holds the tag. *)
Theorem get_tags_wellformed (U : unicode) (h : host) (st : store) :
  NoDup (map fst (get_tags U h st)) /\
  forall t names,
    In (t, names) (get_tags U h st) ->
    t <> [] /\ forallb (tag_char U) t = true /\ names <> [] /\
    forall n,
      In n names ->
      exists f content,
        In f (rglob true h st (get_vault_path h)) /\
        is_hidden_or_system f = false /\
        read_text h st f = inl content /\
        In t (findall_tags U content) /\ n = stem f.
Proof.
  assert (Hnd : NoDup (map fst (get_tags U h st))).
  { unfold get_tags. apply tags_loop_nodup. constructor. }
  split; [exact Hnd|]. intros t names Hin.
  assert (Hl := tag_lookup_in t names _ Hnd Hin).
  unfold get_tags in Hl. rewrite tag_lookup_tags_loop in Hl. simpl in Hl.
  set (ns := names_of U h st t (rglob true h st (get_vault_path h))) in *.
  assert (Hns : names = ns /\ ns <> []).
  { destruct ns; [discriminate|]. inversion Hl. split; [reflexivity|discriminate]. }
  destruct Hns as [-> Hne].
  assert (Hall : forall n, In n ns ->
            exists f content,
              In f (rglob true h st (get_vault_path h)) /\
              is_hidden_or_system f = false /\
              read_text h st f = inl content /\
              In t (findall_tags U content) /\ n = stem f)
    by (intros n; apply names_of_inv).
  destruct ns as [|n0 ns'] eqn:E; [congruence|].
  destruct (Hall n0 (or_introl eq_refl)) as (f & content & _ & _ & _ & Ht & _).
  apply findall_from_sound in Ht as (Ht1 & Ht2 & _).
  repeat split; auto.
Qed.

(** ** More on the listing *)

(** X3: When the matches are no more than [limit], the listing holds each
    of them once. *)
Theorem list_markdown_files_complete (h : host) (st : store)
  (folder : option pystr) (limit : Z) :
  (Z.of_nat (length (collect_all h st (get_vault_path h)
                       (rglob true h st (search_path h folder)))) <= limit)%Z ->
  Permutation
    (collect_all h st (get_vault_path h) (rglob true h st (search_path h folder)))
    (list_markdown_files h st folder limit).
Proof.
  intros Hl. rewrite list_markdown_files_cut_then_sorted.
  rewrite firstn_all2 by lia. apply sorted_desc_perm.
Qed.

Lemma list_markdown_files_complete_witness :
  Permutation [entry_a; entry_b]
    (list_markdown_files host_v vault_two_notes None 2).
Proof.
  apply (list_markdown_files_complete host_v vault_two_notes None 2).
  vm_compute. discriminate.
Defined.

Lemma path_str_relative (segs : list pystr) :
  segs <> [] ->
  path_str {| is_absolute := false; segments := segs |} = join slash segs.
Proof. destruct segs; [congruence|reflexivity]. Qed.

(** X4: With a relative [folder], every path of the listing begins with
    the folder's segments: the listing is confined to that folder. *)
Theorem list_markdown_files_in_folder (h : host) (st : store)
  (folder : pystr) (limit : Z) (e : entry) :
  is_absolute (path_of folder) = false ->
  In e (list_markdown_files h st (Some folder) limit) ->
  exists rest,
    rest <> [] /\
    e_path e = join slash (segments (path_of folder) ++ rest).
Proof.
  intros Hrel Hin.
  assert (Hsp : search_path h (Some folder) = div (get_vault_path h) folder).
  { destruct folder; [|reflexivity].
    unfold search_path, div, joinpath. simpl. rewrite app_nil_r.
    reflexivity. }
  rewrite list_markdown_files_cut_then_sorted in Hin.
  apply (Permutation_in _ (Permutation_sym (sorted_desc_perm _))) in Hin.
  apply in_firstn in Hin. rewrite collect_all_somes in Hin.
  apply in_somes, in_map_iff in Hin as (f & Hstep & Hf).
  rewrite Hsp in Hf.
  apply relative_to_scanned in Hf as (rel0 & _ & -> & Hr0 & Hne).
  unfold list_step, list_entry in Hstep.
  destruct (is_hidden_or_system _); [discriminate|].
  destruct (stat h st _) as [s|x]; simpl in Hstep; [|discriminate].
  assert (Hr : relative_to (joinpath (div (get_vault_path h) folder) rel0)
                           (get_vault_path h)
               = Some {| is_absolute := false;
                         segments := segments (path_of folder) ++ segments rel0 |}).
  { unfold relative_to, div, joinpath. rewrite Hr0, Hrel. simpl.
    now rewrite eqb_reflx, <- app_assoc, strip_prefix_refl_app. }
  rewrite Hr in Hstep. inversion Hstep; subst e; clear Hstep. simpl.
  exists (segments rel0). split; [exact Hne|].
  apply path_str_relative. intros E.
  apply app_eq_nil in E as [_ E]. congruence.
Qed.

Lemma list_markdown_files_in_folder_witness :
  exists rest,
    rest <> [] /\
    lit "work/plan.md" = join slash (segments (path_of (lit "work")) ++ rest).
Proof.
  apply (list_markdown_files_in_folder host_v vault_folders (lit "work") 50
           {| e_name := lit "plan"; e_path := lit "work/plan.md";
              e_modified := 5; e_size := Some 10%N; e_snippet := None |}).
  - reflexivity.
  - left; reflexivity.
Defined.

(** ** The hidden filter, downwards *)

(** X12: Whatever lies below a hidden path is hidden: no note in a dot
    folder, in [.obsidian] or in [.trash], at any depth, passes the
    filter. *)
Theorem hidden_below_hidden (p : Path) (below : pystr) :
  is_absolute (path_of below) = false ->
  is_hidden_or_system p = true ->
  is_hidden_or_system (div p below) = true.
Proof.
  intros Hrel Hh. unfold div. now apply hidden_joinpath.
Qed.

Lemma hidden_below_hidden_witness :
  is_hidden_or_system (div (path_of (lit "/v/.obsidian")) (lit "plugins/x/readme.md"))
    = true.
Proof.
  apply (hidden_below_hidden (path_of (lit "/v/.obsidian"))
           (lit "plugins/x/readme.md")); reflexivity.
Defined.

(** ** The snippet around the first match *)

(** X8: For a content and a query without the capital sigma (where
    the host lowers code point by code point): when the text before
    the first match has its length in lower case and the matched text
    has the query's length, the snippet is the 50 characters before
    the match, the match, and the 50 characters after it, each clipped
    to the content, with line feeds turned into spaces. *)
Theorem snippet_around_first_match (U : unicode) (query a m b : pystr) :
  ~ In capital_sigma query ->
  ~ In capital_sigma (a ++ m ++ b) ->
  lower U m = lower U query ->
  length m = length query ->
  length (lower U a) = length a ->
  (forall j, (j < length a)%nat ->
     startswith (lower U query) (skipn j (lower U (a ++ m ++ b))) = false) ->
  snippet_of U query (a ++ m ++ b) =
  replace_newlines (skipn (length a - 50) a ++ m ++ firstn 50 b).
Proof. intros _ _. exact (snippet_of_first_match U query a m b). Qed.

Lemma snippet_around_first_match_witness :
  snippet_of sample_unicode (lit "apple") (lit "one" ++ lit "Apple" ++ [10%N; 116%N])
  = lit "oneApple t".
Proof.
  apply (snippet_around_first_match sample_unicode (lit "apple") (lit "one")
           (lit "Apple") [10%N; 116%N]).
  - simpl. intros H. repeat (destruct H as [H|H]; [discriminate H|]). exact H.
  - simpl. intros H. repeat (destruct H as [H|H]; [discriminate H|]). exact H.
  - reflexivity.
  - reflexivity.
  - reflexivity.
  - intros j Hj. simpl in Hj.
    destruct j as [|[|[|j]]]; try reflexivity. lia.
Defined.
